(** * agent-exec: a shallow embedding of [src/agent-exec.ts]

    The development follows the source file top-down: the JavaScript
    string primitives the program relies on, the option normalizers,
    the binary classifier, the argument parser, the argument
    interpolator and process runner, the change collector, and [main].

    External collaborators (the environment, the child processes, the
    file system) are explicit inputs of the functions that consult them. *)

From Stdlib Require Import ZArith NArith QArith Qround Lia List Bool Ascii String.
From Stdlib.Strings Require Import Byte.
From Stdlib Require Uint63 PrimFloat.
From stdpp Require Import base option list gmap.

Local Open Scope nat_scope.

(** ** JavaScript strings

    A JavaScript string is a sequence of UTF-16 code units; every string
    primitive used by the program ([===], [startsWith], [includes],
    [replaceAll], [split], [slice], [trim], [join]) works on code units. *)

Abbreviation code_unit := N (only parsing).
Abbreviation jsstring := (list N) (only parsing).

(** String literals of the source, written as Rocq strings. *)
Definition lit (s : string) : jsstring :=
  map N_of_ascii (list_ascii_of_string s).

(** [a === b] on strings. *)
Definition str_eqb (a b : jsstring) : bool := bool_decide (a = b).

(** Truthiness of a possibly-undefined string: [undefined] and the empty
    string are falsy. *)
Definition truthy (v : option jsstring) : bool :=
  match v with
  | Some (_ :: _) => true
  | _ => false
  end.

(** [a ?? b]: only [undefined] falls through. *)
Definition nullish {A} (a : option A) (b : option A) : option A :=
  match a with
  | Some _ => a
  | None => b
  end.

(** [s.startsWith(p)] *)
Fixpoint startsWith (s p : jsstring) {struct p} : bool :=
  match p with
  | [] => true
  | c :: p' =>
      match s with
      | [] => false
      | d :: s' => N.eqb d c && startsWith s' p'
      end
  end.

(** [s.includes(sub)] *)
Fixpoint includes (s sub : jsstring) {struct s} : bool :=
  startsWith s sub ||
  match s with
  | [] => false
  | _ :: s' => includes s' sub
  end.

(** [s.slice(0, n)] and [s.slice(n)] for a non-negative literal [n]. *)
Definition slice_to (n : nat) (s : jsstring) : jsstring := take n s.
Definition slice_from (n : nat) (s : jsstring) : jsstring := drop n s.

(** ECMAScript's WhiteSpace and LineTerminator code units, the ones
    [trim] strips. *)
Definition is_white (c : code_unit) : bool :=
  (N.leb 9 c && N.leb c 13) || N.eqb c 32 || N.eqb c 160 ||
  N.eqb c 5760 || (N.leb 8192 c && N.leb c 8202) ||
  N.eqb c 8232 || N.eqb c 8233 || N.eqb c 8239 || N.eqb c 8287 ||
  N.eqb c 12288 || N.eqb c 65279.

Fixpoint trimStart (s : jsstring) : jsstring :=
  match s with
  | [] => []
  | c :: s' => if is_white c then trimStart s' else s
  end.

Definition trimEnd (s : jsstring) : jsstring := rev (trimStart (rev s)).

(** [s.trim()] *)
Definition trim (s : jsstring) : jsstring := trimEnd (trimStart s).

(** [parts.join(sep)] *)
Fixpoint join (sep : jsstring) (parts : list jsstring) : jsstring :=
  match parts with
  | [] => []
  | p :: rest =>
      match rest with
      | [] => p
      | _ :: _ => p ++ sep ++ join sep rest
      end
  end.

(** [s.split(sep)] for a non-empty separator string: leftmost,
    non-overlapping occurrences.  [cur] is the piece being accumulated
    and [skip] counts the code units of a separator still to be passed. *)
Fixpoint split_scan (sep cur rest : jsstring) (skip : nat) : list jsstring :=
  match rest with
  | [] => [cur]
  | c :: rest' =>
      match skip with
      | S k => split_scan sep cur rest' k
      | O =>
          if startsWith rest sep
          then cur :: split_scan sep [] rest' (length sep - 1)
          else split_scan sep (cur ++ [c]) rest' 0
      end
  end.

Definition split (s sep : jsstring) : list jsstring := split_scan sep [] s 0.

(** [s.split(/\r?\n/)]: a line ends at a line feed, optionally preceded
    by a carriage return. *)
Fixpoint split_lines_scan (cur rest : jsstring) : list jsstring :=
  match rest with
  | [] => [cur]
  | c :: rest' =>
      if N.eqb c 10 then cur :: split_lines_scan [] rest'
      else
        match rest' with
        | d :: rest'' =>
            if N.eqb c 13 && N.eqb d 10
            then cur :: split_lines_scan [] rest''
            else split_lines_scan (cur ++ [c]) rest'
        | [] => split_lines_scan (cur ++ [c]) rest'
        end
  end.

Definition split_lines (s : jsstring) : list jsstring := split_lines_scan [] s.

(** [xs.filter(Boolean)] on an array of strings drops the empty ones. *)
Definition filter_Boolean (xs : list jsstring) : list jsstring :=
  filter (fun x => x ≠ []) xs.

(** [GetSubstitution] of ECMAScript for a string pattern (no capture
    groups): in the replacement text [$$] stands for a dollar sign, [$&]
    for the matched text, [$`] for the text before the match and [$']
    for the text after it; any other [$] is literal. *)
Fixpoint GetSubstitution (matched before after template : jsstring) : jsstring :=
  match template with
  | [] => []
  | c :: rest =>
      match rest with
      | d :: rest' =>
          if N.eqb c 36 && N.eqb d 36 then 36%N :: GetSubstitution matched before after rest'
          else if N.eqb c 36 && N.eqb d 38 then matched ++ GetSubstitution matched before after rest'
          else if N.eqb c 36 && N.eqb d 96 then before ++ GetSubstitution matched before after rest'
          else if N.eqb c 36 && N.eqb d 39 then after ++ GetSubstitution matched before after rest'
          else c :: GetSubstitution matched before after rest
      | [] => [c]
      end
  end.

(** [s.replaceAll(pat, rep)] for a non-empty pattern string: every
    leftmost non-overlapping occurrence of [pat] is replaced by the
    substitution of [rep].  [before] is the part of the subject already
    passed, [skip] the code units of a matched occurrence still to pass. *)
Fixpoint replaceAll_scan (pat rep before rest : jsstring) (skip : nat) : jsstring :=
  match rest with
  | [] => []
  | c :: rest' =>
      match skip with
      | S k => replaceAll_scan pat rep (before ++ [c]) rest' k
      | O =>
          if startsWith rest pat
          then GetSubstitution pat before (drop (length pat) rest) rep
                 ++ replaceAll_scan pat rep (before ++ [c]) rest' (length pat - 1)
          else c :: replaceAll_scan pat rep (before ++ [c]) rest' 0
      end
  end.

Definition replaceAll (s pat rep : jsstring) : jsstring :=
  replaceAll_scan pat rep [] s 0.

(** ** JavaScript numbers

    The program handles numbers in two places: the byte cap, obtained
    with [Number(value)], and the ratio test of the binary classifier.
    A finite double is a rational number, and the comparisons and the
    truncation applied to these numbers are exact on doubles, so finite
    numbers are carried as rationals. *)

Inductive number : Type :=
  | NaN
  | PosInfinity
  | NegInfinity
  | Finite (q : Q).

(** [a > b] on finite numbers. *)
Definition Qgtb (a b : Q) : bool := negb (Qle_bool a b).

(** ** Types of the program *)

Inductive AgentName : Type := codex | claude | cursor.
Inductive OutputFormat : Type := FmtJson | FmtText.
Inductive InputMode : Type := InAuto | InArg | InStdin | InNone.

#[global] Instance AgentName_eq_dec : EqDecision AgentName.
Proof. solve_decision. Defined.
#[global] Instance OutputFormat_eq_dec : EqDecision OutputFormat.
Proof. solve_decision. Defined.
#[global] Instance InputMode_eq_dec : EqDecision InputMode.
Proof. solve_decision. Defined.

(** [type Options]; [dir] is [undefined] when [--dir] ends the command
    line, [modelId] and [help] are optional fields. *)
Record Options : Type := mkOptions {
  opt_agent : option AgentName;
  opt_dir : option jsstring;
  opt_format : OutputFormat;
  opt_input : InputMode;
  opt_maxBytes : Q;
  opt_includeContent : bool;
  opt_list : bool;
  opt_modelId : option jsstring;
  opt_help : bool
}.

(** [type AgentConfig] *)
Record AgentConfig : Type := mkAgentConfig {
  cfg_name : AgentName;
  cfg_cmd : jsstring;
  cfg_args : list jsstring
}.

(** [type Change] *)
Record Change : Type := mkChange {
  ch_path : jsstring;
  ch_status : jsstring;
  ch_content : option jsstring;
  ch_truncated : option bool;
  ch_binary : option bool
}.

Definition DEFAULT_FORMAT : OutputFormat := FmtJson.
Definition DEFAULT_INPUT : InputMode := InAuto.
Definition DEFAULT_MAX_BYTES : Q := 1000000 # 1.

(** [process.env] *)
Abbreviation Env := (gmap (list N) (list N)) (only parsing).

Definition getEnvValue (env : Env) (name : jsstring) : option jsstring :=
  nullish (env !! (lit "AGENT_EXEC_" ++ name)) (env !! (lit "AGENT_RUN_" ++ name)).

Definition normalizeFormat (value : option jsstring) : OutputFormat :=
  match value with
  | Some v =>
      if str_eqb v (lit "json") then FmtJson
      else if str_eqb v (lit "text") then FmtText
      else DEFAULT_FORMAT
  | None => DEFAULT_FORMAT
  end.

Definition normalizeAgent (value : option jsstring) : option AgentName :=
  match value with
  | Some v =>
      if str_eqb v (lit "codex") then Some codex
      else if str_eqb v (lit "claude") then Some claude
      else if str_eqb v (lit "cursor") then Some cursor
      else None
  | None => None
  end.

Definition normalizeInput (value : option jsstring) : InputMode :=
  match value with
  | Some v =>
      if str_eqb v (lit "auto") then InAuto
      else if str_eqb v (lit "arg") then InArg
      else if str_eqb v (lit "stdin") then InStdin
      else if str_eqb v (lit "none") then InNone
      else DEFAULT_INPUT
  | None => DEFAULT_INPUT
  end.

(** [agent.toUpperCase()] on the three agent names. *)
Definition toUpperCase (agent : AgentName) : jsstring :=
  match agent with
  | codex => lit "CODEX"
  | claude => lit "CLAUDE"
  | cursor => lit "CURSOR"
  end.

(** [a || d] where [d] is a string. *)
Definition or_default (a : option jsstring) (d : jsstring) : jsstring :=
  match a with
  | Some (c :: s) => c :: s
  | _ => d
  end.

Definition getModelFlag (env : Env) (agent : AgentName) : jsstring :=
  or_default (getEnvValue env (lit "MODEL_FLAG_" ++ toUpperCase agent))
    (or_default (getEnvValue env (lit "MODEL_FLAG")) (lit "--model")).

(** The test of [hasFlag]: the flag itself or its [flag=value] form. *)
Definition matches_flag (flag arg : jsstring) : bool :=
  str_eqb arg flag || startsWith arg (flag ++ lit "=").

Definition hasFlag (args : list jsstring) (flag : jsstring) : bool :=
  existsb (matches_flag flag) args.

(** ** The binary classifier *)

Definition isPrintable (byte : N) : bool :=
  N.eqb byte 9 || N.eqb byte 10 || N.eqb byte 13 ||
  (N.leb 32 byte && N.leb byte 126).

(** The [for] loop of [isProbablyBinary]: [None] is the early
    [return true] on a null byte, [Some n] the value of [nonPrintable]
    when the loop runs to its end. *)
Fixpoint isProbablyBinary_loop (sample : list byte) (nonPrintable : nat) : option nat :=
  match sample with
  | [] => Some nonPrintable
  | b :: rest =>
      if N.eqb (Byte.to_N b) 0 then None
      else if isPrintable (Byte.to_N b)
           then isProbablyBinary_loop rest nonPrintable
           else isProbablyBinary_loop rest (nonPrintable + 1)
  end.

(** [nonPrintable / sample.length > 0.3].  Both operands of the division
    are integers not above 8000, the division of doubles is correctly
    rounded, and [0.3] denotes the double nearest to 3/10: a quotient
    that is not 3/10 is at least 1/80000 away from it, far beyond the
    rounding error, and the quotient 3/10 rounds to the literal itself.
    The comparison on doubles is therefore the comparison on rationals. *)
Definition ratio_exceeds (nonPrintable len : nat) : bool :=
  Qgtb (inject_Z (Z.of_nat nonPrintable) / inject_Z (Z.of_nat len)) (3 # 10).

(** The same test on binary64 numbers, as the source computes it; it is
    compared with the exact test at the numerators that matter. *)
Module Doubles.

Import PrimFloat.

(** An integer as a double. *)
Definition of_Z (n : Z) : float := of_uint63 (Uint63.of_Z n).

Definition ratio_exceeds (nonPrintable len : Z) : bool :=
  ltb (0x1.3333333333333p-2)%float (div (of_Z nonPrintable) (of_Z len)).

(** For a sample of [len] bytes with [n] non-printable ones, does the
    test on doubles give the answer of the exact test? *)
Definition agree (len n : Z) : bool :=
  Bool.eqb (ratio_exceeds n len) (3 * len <? 10 * n)%Z.

(** The numerators 0 and [len], and the two around 30% of [len]. *)
Definition agree_at (len : Z) : bool :=
  forallb (agree len) [0; 3 * len / 10; 3 * len / 10 + 1; len]%Z.

Fixpoint lengths (first : Z) (count : nat) : list Z :=
  match count with
  | O => []
  | S k => first :: lengths (first + 1) k
  end.

End Doubles.

Definition isProbablyBinary (buffer : list byte) : bool :=
  let sample := take (Z.to_nat 8000) buffer in
  match isProbablyBinary_loop sample 0 with
  | None => true
  | Some nonPrintable =>
      Nat.ltb 0 (length sample) && ratio_exceeds nonPrintable (length sample)
  end.


(** ** The runtime

    Three library functions of the platform are left abstract: the
    conversion of a string to a number behind [Number(value)],
    [path.resolve], and the decoding of a buffer as UTF-8. *)

Class Runtime : Type := mkRuntime {
  StringToNumber : jsstring -> number;
  path_resolve : list jsstring -> jsstring;
  utf8_decode : list byte -> jsstring
}.

Section Program.

Context {rt : Runtime}.

(** [Number(value)]: [undefined] converts to [NaN]. *)
Definition Number (value : option jsstring) : number :=
  match value with
  | None => NaN
  | Some s => StringToNumber s
  end.

Definition normalizeMaxBytes (value : option jsstring) : Q :=
  match Number value with
  | Finite parsed => if Qgtb parsed 0 then parsed else DEFAULT_MAX_BYTES
  | _ => DEFAULT_MAX_BYTES
  end.

(** ** Argument parsing *)

Inductive ParseError : Type :=
  | InvalidAgent (value : option jsstring)
  | MissingModelValue.

(** The tests [arg === "..."] of the parsing loop, in their order. *)
Inductive Token : Type :=
  | TDelimiter | THelp | TList | TAgent | TDir | TModel | TFormat
  | TJson | TText | TInput | TArg | TStdin | TNoInput | TMaxBytes
  | TNoContent | TContent | TPositional.

Definition classify (arg : jsstring) : Token :=
  if str_eqb arg (lit "--") then TDelimiter
  else if str_eqb arg (lit "-h") || str_eqb arg (lit "--help") then THelp
  else if str_eqb arg (lit "--list") then TList
  else if str_eqb arg (lit "-a") || str_eqb arg (lit "--agent") then TAgent
  else if str_eqb arg (lit "-d") || str_eqb arg (lit "--dir") then TDir
  else if str_eqb arg (lit "-m") || str_eqb arg (lit "--model")
          || str_eqb arg (lit "--model-id") then TModel
  else if str_eqb arg (lit "-f") || str_eqb arg (lit "--format") then TFormat
  else if str_eqb arg (lit "--json") then TJson
  else if str_eqb arg (lit "--text") then TText
  else if str_eqb arg (lit "--input") then TInput
  else if str_eqb arg (lit "--arg") then TArg
  else if str_eqb arg (lit "--stdin") then TStdin
  else if str_eqb arg (lit "--no-input") then TNoInput
  else if str_eqb arg (lit "--max-bytes") then TMaxBytes
  else if str_eqb arg (lit "--no-content") then TNoContent
  else if str_eqb arg (lit "--content") then TContent
  else TPositional.

(** Assignments to the fields of [options]. *)
Definition set_agent (v : AgentName) (o : Options) : Options :=
  mkOptions (Some v) (opt_dir o) (opt_format o) (opt_input o) (opt_maxBytes o)
    (opt_includeContent o) (opt_list o) (opt_modelId o) (opt_help o).
Definition set_dir (v : option jsstring) (o : Options) : Options :=
  mkOptions (opt_agent o) v (opt_format o) (opt_input o) (opt_maxBytes o)
    (opt_includeContent o) (opt_list o) (opt_modelId o) (opt_help o).
Definition set_format (v : OutputFormat) (o : Options) : Options :=
  mkOptions (opt_agent o) (opt_dir o) v (opt_input o) (opt_maxBytes o)
    (opt_includeContent o) (opt_list o) (opt_modelId o) (opt_help o).
Definition set_input (v : InputMode) (o : Options) : Options :=
  mkOptions (opt_agent o) (opt_dir o) (opt_format o) v (opt_maxBytes o)
    (opt_includeContent o) (opt_list o) (opt_modelId o) (opt_help o).
Definition set_maxBytes (v : Q) (o : Options) : Options :=
  mkOptions (opt_agent o) (opt_dir o) (opt_format o) (opt_input o) v
    (opt_includeContent o) (opt_list o) (opt_modelId o) (opt_help o).
Definition set_includeContent (v : bool) (o : Options) : Options :=
  mkOptions (opt_agent o) (opt_dir o) (opt_format o) (opt_input o) (opt_maxBytes o)
    v (opt_list o) (opt_modelId o) (opt_help o).
Definition set_list (v : bool) (o : Options) : Options :=
  mkOptions (opt_agent o) (opt_dir o) (opt_format o) (opt_input o) (opt_maxBytes o)
    (opt_includeContent o) v (opt_modelId o) (opt_help o).
Definition set_modelId (v : jsstring) (o : Options) : Options :=
  mkOptions (opt_agent o) (opt_dir o) (opt_format o) (opt_input o) (opt_maxBytes o)
    (opt_includeContent o) (opt_list o) (Some v) (opt_help o).
Definition set_help (v : bool) (o : Options) : Options :=
  mkOptions (opt_agent o) (opt_dir o) (opt_format o) (opt_input o) (opt_maxBytes o)
    (opt_includeContent o) (opt_list o) (opt_modelId o) v.

(** The mutable state of the parsing loop. *)
Record ParseState : Type := mkParseState {
  st_options : Options;
  st_positional : list jsstring;
  st_passthrough : list jsstring;
  st_inPassthrough : bool
}.

Definition update_options (f : Options -> Options) (st : ParseState) : ParseState :=
  mkParseState (f (st_options st)) (st_positional st) (st_passthrough st)
    (st_inPassthrough st).
Definition push_positional (arg : jsstring) (st : ParseState) : ParseState :=
  mkParseState (st_options st) (st_positional st ++ [arg]) (st_passthrough st)
    (st_inPassthrough st).
Definition push_passthrough (arg : jsstring) (st : ParseState) : ParseState :=
  mkParseState (st_options st) (st_positional st) (st_passthrough st ++ [arg])
    (st_inPassthrough st).
Definition enter_passthrough (st : ParseState) : ParseState :=
  mkParseState (st_options st) (st_positional st) (st_passthrough st) true.

(** The [for] loop of [parseArgs].  [rest] is [argv] from index [i] on:
    [arg] is [argv[i]], [next] is [argv[i + 1]] ([undefined] past the
    end), [continue1] is [continue] and [continue2] is
    [i += 1; continue].  A [throw] is a left injection. *)
Fixpoint parseArgs_loop (rest : list jsstring) (st : ParseState)
  : ParseError + ParseState :=
  match rest with
  | [] => inr st
  | arg :: tl =>
      let next := head tl in
      let continue1 := parseArgs_loop tl in
      let continue2 :=
        match tl with
        | [] => inr
        | _ :: tl' => parseArgs_loop tl'
        end in
      if st_inPassthrough st then continue1 (push_passthrough arg st)
      else
        match classify arg with
        | TDelimiter => continue1 (enter_passthrough st)
        | THelp => continue1 (update_options (set_help true) st)
        | TList => continue1 (update_options (set_list true) st)
        | TAgent =>
            match normalizeAgent next with
            | None => inl (InvalidAgent next)
            | Some agent => continue2 (update_options (set_agent agent) st)
            end
        | TDir => continue2 (update_options (set_dir next) st)
        | TModel =>
            match next with
            | Some (c :: value) =>
                continue2 (update_options (set_modelId (c :: value)) st)
            | _ => inl MissingModelValue
            end
        | TFormat =>
            continue2 (update_options (set_format (normalizeFormat next)) st)
        | TJson => continue1 (update_options (set_format FmtJson) st)
        | TText => continue1 (update_options (set_format FmtText) st)
        | TInput =>
            continue2 (update_options (set_input (normalizeInput next)) st)
        | TArg => continue1 (update_options (set_input InArg) st)
        | TStdin => continue1 (update_options (set_input InStdin) st)
        | TNoInput => continue1 (update_options (set_input InNone) st)
        | TMaxBytes =>
            continue2 (update_options (set_maxBytes (normalizeMaxBytes next)) st)
        | TNoContent => continue1 (update_options (set_includeContent false) st)
        | TContent => continue1 (update_options (set_includeContent true) st)
        | TPositional => continue1 (push_positional arg st)
        end
  end.

(** The result of [parseArgs]. *)
Record Parsed : Type := mkParsed {
  p_options : Options;
  p_prompt : jsstring;
  p_passthrough : list jsstring
}.

(** The [options] object [parseArgs] starts from. *)
Definition initial_options (env : Env) (cwd : jsstring) : Options :=
  {| opt_agent := normalizeAgent (getEnvValue env (lit "AGENT"));
     opt_dir := Some cwd;
     opt_format := normalizeFormat (getEnvValue env (lit "FORMAT"));
     opt_input := normalizeInput (getEnvValue env (lit "INPUT"));
     opt_maxBytes := normalizeMaxBytes (getEnvValue env (lit "MAX_BYTES"));
     opt_includeContent :=
       if truthy (getEnvValue env (lit "NO_CONTENT")) then false else true;
     opt_list := false;
     opt_modelId := None;
     opt_help := false |}.

(** [parseArgs(argv)], given [process.env] and [process.cwd()]. *)
Definition parseArgs (env : Env) (cwd : jsstring) (argv : list jsstring)
  : ParseError + Parsed :=
  match parseArgs_loop argv (mkParseState (initial_options env cwd) [] [] false) with
  | inl e => inl e
  | inr st =>
      inr {| p_options := st_options st;
             p_prompt := trim (join (lit " ") (st_positional st));
             p_passthrough := st_passthrough st |}
  end.

(** ** Agent configurations *)

Definition splitArgs (value : option jsstring) : list jsstring :=
  match value with
  | Some (c :: v) => filter_Boolean (map trim (split (c :: v) (lit " ")))
  | _ => []
  end.

Definition buildAgentConfigs (env : Env) : list AgentConfig :=
  [ {| cfg_name := codex;
       cfg_cmd := or_default (getEnvValue env (lit "CODEX_CMD")) (lit "codex");
       cfg_args := splitArgs (getEnvValue env (lit "CODEX_ARGS")) |};
    {| cfg_name := claude;
       cfg_cmd := or_default (getEnvValue env (lit "CLAUDE_CMD")) (lit "claude");
       cfg_args := splitArgs (getEnvValue env (lit "CLAUDE_ARGS")) |};
    {| cfg_name := cursor;
       cfg_cmd := or_default (getEnvValue env (lit "CURSOR_CMD")) (lit "agent");
       cfg_args := splitArgs (getEnvValue env (lit "CURSOR_ARGS")) |} ].

Definition selectAgent (configs : list AgentConfig) (agent : option AgentName)
  : option AgentConfig :=
  match agent with
  | None => None
  | Some a => List.find (fun config => bool_decide (cfg_name config = a)) configs
  end.

(** ** Argument interpolation *)

Record Interpolated : Type := mkInterpolated {
  int_args : list jsstring;
  int_usedPrompt : bool
}.

(** [args.map] with the callback that sets [used]: the flag ends up set
    when some entry contains the placeholder. *)
Fixpoint interpolateArgs (args : list jsstring) (prompt : jsstring) : Interpolated :=
  match args with
  | [] => {| int_args := []; int_usedPrompt := false |}
  | arg :: rest =>
      let r := interpolateArgs rest prompt in
      if includes arg (lit "{prompt}")
      then {| int_args := replaceAll arg (lit "{prompt}") prompt :: int_args r;
              int_usedPrompt := true |}
      else {| int_args := arg :: int_args r;
              int_usedPrompt := int_usedPrompt r |}
  end.

(** ** The process runner *)

Inductive StdioMode : Type := Inherit | Pipe.

#[global] Instance StdioMode_eq_dec : EqDecision StdioMode.
Proof. solve_decision. Defined.

(** The argument object of [runAgent]. *)
Record RunParams : Type := mkRunParams {
  rp_config : AgentConfig;
  rp_prompt : jsstring;
  rp_inputMode : InputMode;
  rp_cwd : jsstring;
  rp_passthrough : list jsstring;
  rp_format : OutputFormat;
  rp_modelId : option jsstring
}.

(** What [runAgent] does to the child: the [spawn] call with its command,
    final argument list, working directory and stream wiring, and the
    text written to the child's standard input before it is closed
    ([None]: nothing is written). *)
Record Launch : Type := mkLaunch {
  l_cmd : jsstring;
  l_args : list jsstring;
  l_cwd : jsstring;
  l_stdio : StdioMode * StdioMode * StdioMode;
  l_stdin : option jsstring
}.

(** [baseArgs] after the model flag has been considered. *)
Definition baseArgs (env : Env) (p : RunParams) : list jsstring :=
  let interpolated := interpolateArgs (cfg_args (rp_config p)) (rp_prompt p) in
  let modelFlag := getModelFlag env (cfg_name (rp_config p)) in
  let baseArgs := int_args interpolated ++ rp_passthrough p in
  match rp_modelId p with
  | Some (c :: m) =>
      if negb (hasFlag baseArgs modelFlag)
      then baseArgs ++ [modelFlag; c :: m]
      else baseArgs
  | _ => baseArgs
  end.

(** The three variables [runAgent] sets while it decides how the prompt
    reaches the child. *)
Record Delivery : Type := mkDelivery {
  stdinMode : StdioMode;
  finalArgs : list jsstring;
  sendPrompt : bool
}.

Definition delivery (env : Env) (p : RunParams) : Delivery :=
  let interpolated := interpolateArgs (cfg_args (rp_config p)) (rp_prompt p) in
  let baseArgs := baseArgs env p in
  let prompt := rp_prompt p in
  match prompt with
  | [] => mkDelivery Inherit baseArgs false
  | _ :: _ =>
      match rp_inputMode p with
      | InArg =>
          if negb (int_usedPrompt interpolated)
          then mkDelivery Inherit (baseArgs ++ [prompt]) false
          else mkDelivery Inherit baseArgs false
      | InStdin => mkDelivery Pipe baseArgs true
      | InAuto =>
          if negb (int_usedPrompt interpolated)
          then mkDelivery Inherit (baseArgs ++ [prompt]) false
          else mkDelivery Inherit baseArgs false
      | InNone => mkDelivery Inherit baseArgs false
      end
  end.

(** The part of [runAgent] before the promise settles: the [spawn] call
    and the write to the child's input. *)
Definition runAgent_launch (env : Env) (p : RunParams) : Launch :=
  let d := delivery env p in
  let usePipes :=
    bool_decide (rp_format p = FmtJson) || bool_decide (stdinMode d = Pipe) in
  let stdio :=
    if usePipes then (stdinMode d, Pipe, Pipe) else (Inherit, Inherit, Inherit) in
  {| l_cmd := cfg_cmd (rp_config p);
     l_args := finalArgs d;
     l_cwd := rp_cwd p;
     l_stdio := stdio;
     l_stdin := if sendPrompt d then Some (rp_prompt p) else None |}.

Record RunResult : Type := mkRunResult {
  exitCode : Z;
  args : list jsstring
}.

(** [runAgent]: the promise resolves on the child's [close] event;
    [child] gives the code of that event ([None] when the process ended
    without one) for the launch performed. *)
Definition runAgent (env : Env) (child : Launch -> option Z) (p : RunParams)
  : RunResult :=
  let launch := runAgent_launch env p in
  {| exitCode := default 0%Z (child launch);
     args := l_args launch |}.

(** ** The change collector *)

(** [ToIntegerOrInfinity] on a finite number: truncation towards zero. *)
Definition ToIntegerOrInfinity (q : Q) : Z :=
  if Qle_bool 0 q then Qfloor q else Qceiling q.

(** [data.subarray(0, end)]: a negative [end] counts from the end of the
    buffer, and the result is clamped to the buffer. *)
Definition subarray_to (end_ : Q) (data : list byte) : list byte :=
  let len := Z.of_nat (length data) in
  let relativeEnd := ToIntegerOrInfinity end_ in
  let final :=
    if (relativeEnd <? 0)%Z then Z.max (len + relativeEnd) 0
    else Z.min relativeEnd len in
  take (Z.to_nat final) data.

(** The body of the [try] block once [fs.readFile] has returned [data]. *)
Definition record_content (maxBytes : Q) (data : list byte) (change : Change) : Change :=
  if isProbablyBinary data then
    mkChange (ch_path change) (ch_status change) (ch_content change)
      (ch_truncated change) (Some true)
  else if Qgtb (inject_Z (Z.of_nat (length data))) maxBytes then
    mkChange (ch_path change) (ch_status change)
      (Some (utf8_decode (subarray_to maxBytes data))) (Some true)
      (ch_binary change)
  else
    mkChange (ch_path change) (ch_status change) (Some (utf8_decode data))
      (ch_truncated change) (ch_binary change).

(** The status code and the path of one line of [git status]; [None]
    when the path is empty and the line is skipped. *)
Definition parse_line (line : jsstring) : option (jsstring * jsstring) :=
  let status := trim (slice_to 2 line) in
  let file := trim (slice_from 3 line) in
  let file :=
    if includes file (lit " -> ")
    then or_default (last (split file (lit " -> "))) file
    else file in
  match file with
  | [] => None
  | _ :: _ => Some (status, file)
  end.

(** The [for] loop of [getGitChanges]; [readFile] gives the bytes of the
    file at an absolute path, or [None] when the read throws. *)
Fixpoint getGitChanges_loop (readFile : jsstring -> option (list byte))
    (cwd : jsstring) (maxBytes : Q) (includeContent : bool)
    (lines : list jsstring) : list Change :=
  match lines with
  | [] => []
  | line :: rest =>
      let continue := getGitChanges_loop readFile cwd maxBytes includeContent rest in
      match parse_line line with
      | None => continue
      | Some (status, file) =>
          let change := mkChange file status None None None in
          let change :=
            if includeContent then
              let absPath := path_resolve [cwd; file] in
              match readFile absPath with
              | Some data => record_content maxBytes data change
              | None => change
              end
            else change in
          change :: continue
      end
  end.

(** [getGitChanges]; [git] is the outcome of the status query: its
    output and the code of its [close] event. *)
Definition getGitChanges (git : jsstring * option Z)
    (readFile : jsstring -> option (list byte))
    (cwd : jsstring) (maxBytes : Q) (includeContent : bool) : list Change :=
  let stdout := fst git in
  let exitCode := default 1%Z (snd git) in
  if negb (exitCode =? 0)%Z then []
  else
    let lines := filter_Boolean (split_lines stdout) in
    getGitChanges_loop readFile cwd maxBytes includeContent lines.

(** ** The entry point *)

(** How a child process without a [close] code of interest ends: with
    an [error] event or with a [close] event. *)
Inductive ChildEnd : Type :=
  | ChildError
  | ChildClose (code : option Z).

(** Everything [main] consults outside the program. *)
Record World : Type := mkWorld {
  w_env : Env;
  w_cwd : jsstring;
  w_win32 : bool;
  w_commandExists : jsstring -> bool;
  w_skills : jsstring -> list jsstring -> ChildEnd;
  w_agent : Launch -> option Z;
  w_git : jsstring -> jsstring * option Z;
  w_readFile : jsstring -> option (list byte)
}.

Definition getNpxCommand (w : World) : jsstring :=
  if w_win32 w then lit "npx.cmd" else lit "npx".

Definition runSkills (w : World) (args : list jsstring) : Z :=
  if negb (w_commandExists w (lit "npx")) then 1%Z
  else
    match w_skills w (getNpxCommand w) (lit "skills" :: args) with
    | ChildError => 1%Z
    | ChildClose code => default 0%Z code
    end.

Definition listAgents (w : World) (configs : list AgentConfig)
  : list (AgentName * bool * jsstring) :=
  map (fun config =>
         (cfg_name config, w_commandExists w (cfg_cmd config), cfg_cmd config))
      configs.

(** The object given to [JSON.stringify]. *)
Record Output : Type := mkOutput {
  ok : bool;
  agent : AgentName;
  model : option jsstring;
  command : jsstring;
  out_args : list jsstring;
  out_cwd : jsstring;
  out_exitCode : Z;
  changes : list Change
}.

(** What escapes [main] and is caught by its [catch] handler. *)
Inductive Thrown : Type :=
  | ParseFailure (e : ParseError)
  | InvalidPathArgument.

(** What one invocation does. *)
Inductive Outcome : Type :=
  | Skills (code : Z)
  | Usage
  | AgentList (rows : list (AgentName * bool * jsstring))
  | MissingAgent
  | UnknownAgent
  | AgentNotFound (cmd : jsstring)
  | Uncaught (e : Thrown)
  | JsonOutput (o : Output)
  | TextOutput (diagnostic : option Z).

(** [process.exitCode] at the end of the invocation. *)
Definition process_exitCode (r : Outcome) : Z :=
  match r with
  | Skills code => code
  | MissingAgent | UnknownAgent | AgentNotFound _ | Uncaught _ => 1%Z
  | Usage | AgentList _ | JsonOutput _ | TextOutput _ => 0%Z
  end.

(** The argument object [main] hands to [runAgent]. *)
Definition runParams (selected : AgentConfig) (cwd : jsstring) (parsed : Parsed)
  : RunParams :=
  {| rp_config := selected;
     rp_prompt := p_prompt parsed;
     rp_inputMode := opt_input (p_options parsed);
     rp_cwd := cwd;
     rp_passthrough := p_passthrough parsed;
     rp_format := opt_format (p_options parsed);
     rp_modelId := opt_modelId (p_options parsed) |}.

Definition main (w : World) (rawArgs : list jsstring) : Outcome :=
  if bool_decide (head rawArgs = Some (lit "skills"))
  then Skills (runSkills w (drop 1 rawArgs))
  else
    match parseArgs (w_env w) (w_cwd w) rawArgs with
    | inl e => Uncaught (ParseFailure e)
    | inr parsed =>
        let options := p_options parsed in
        if opt_help options then Usage
        else
          let configs := buildAgentConfigs (w_env w) in
          if opt_list options then AgentList (listAgents w configs)
          else
            match opt_agent options with
            | None => MissingAgent
            | Some _ =>
                match selectAgent configs (opt_agent options) with
                | None => UnknownAgent
                | Some selected =>
                    if negb (w_commandExists w (cfg_cmd selected))
                    then AgentNotFound (cfg_cmd selected)
                    else
                      match opt_dir options with
                      | None => Uncaught InvalidPathArgument
                      | Some dir =>
                          let cwd := path_resolve [dir] in
                          let runResult :=
                            runAgent (w_env w) (w_agent w)
                              (runParams selected cwd parsed) in
                          match opt_format options with
                          | FmtJson =>
                              let changes :=
                                getGitChanges (w_git w cwd) (w_readFile w) cwd
                                  (opt_maxBytes options)
                                  (opt_includeContent options) in
                              JsonOutput
                                {| ok := (exitCode runResult =? 0)%Z;
                                   agent := cfg_name selected;
                                   model := opt_modelId options;
                                   command := cfg_cmd selected;
                                   out_args := args runResult;
                                   out_cwd := cwd;
                                   out_exitCode := exitCode runResult;
                                   changes := changes |}
                          | FmtText =>
                              if negb (exitCode runResult =? 0)%Z
                              then TextOutput (Some (exitCode runResult))
                              else TextOutput None
                          end
                      end
                end
            end
    end.

End Program.

(** ** A runtime for running the definitions

    Decimal numerals convert to their value and any other string to
    [NaN]; paths resolve by joining their segments with a slash; bytes
    decode to the code units of the same value. *)

Fixpoint decimal_value (acc : N) (s : jsstring) : option N :=
  match s with
  | [] => Some acc
  | c :: s' =>
      if N.leb 48 c && N.leb c 57
      then decimal_value (10 * acc + (c - 48)) s'
      else None
  end.

Definition sample_runtime : Runtime :=
  {| StringToNumber := fun s =>
       match s with
       | [] => NaN
       | _ :: _ =>
           match decimal_value 0 s with
           | Some n => Finite (inject_Z (Z.of_N n))
           | None => NaN
           end
       end;
     path_resolve := join (lit "/");
     utf8_decode := map Byte.to_N |}.

(** ** Vocabulary of the specification *)

(** A null byte, and a byte outside the printable set. *)
Definition is_null (b : byte) : bool := N.eqb (Byte.to_N b) 0.
Definition is_nonPrintable (b : byte) : bool := negb (isPrintable (Byte.to_N b)).

(** The bytes that count as text: tab, line feed, carriage return, and
    32 through 126. *)
Definition text_byte (n : N) : Prop :=
  (n = 9 \/ n = 10 \/ n = 13 \/ (32 <= n /\ n <= 126))%N.

#[global] Instance text_byte_dec (n : N) : Decision (text_byte n).
Proof. unfold text_byte. apply _. Defined.

(** The options that are followed by a value. *)
Definition takes_value (t : Token) : bool :=
  match t with
  | TAgent | TDir | TModel | TFormat | TInput | TMaxBytes => true
  | _ => false
  end.

(** The positional tokens of a command line: the tokens in front of the
    delimiter that are neither an option nor the value of one. *)
Fixpoint positional_tokens (argv : list jsstring) : list jsstring :=
  match argv with
  | [] => []
  | arg :: tl =>
      match classify arg with
      | TDelimiter => []
      | TPositional => arg :: positional_tokens tl
      | t =>
          if takes_value t
          then match tl with
               | [] => []
               | _ :: tl' => positional_tokens tl'
               end
          else positional_tokens tl
      end
  end.

(** A run of command-line tokens is complete when it holds no delimiter
    and every option that is followed by a value has its value inside
    the run: whatever comes after it is read as a fresh token. *)
Fixpoint complete (argv : list jsstring) : bool :=
  match argv with
  | [] => true
  | arg :: tl =>
      match classify arg with
      | TDelimiter => false
      | t =>
          if takes_value t
          then match tl with
               | [] => false
               | _ :: tl' => complete tl'
               end
          else complete tl
      end
  end.

(** The result of [parseArgs] for a final state of its loop. *)
Definition parsed_of (st : ParseState) : Parsed :=
  {| p_options := st_options st;
     p_prompt := trim (join (lit " ") (st_positional st));
     p_passthrough := st_passthrough st |}.

Definition map_options (f : Options -> Options) (r : Parsed) : Parsed :=
  mkParsed (f (p_options r)) (p_prompt r) (p_passthrough r).

Definition with_passthrough (passthrough : list jsstring) (r : Parsed) : Parsed :=
  mkParsed (p_options r) (p_prompt r) passthrough.

(** Where a parse error comes from: a model option whose value is
    missing or empty, or an agent option whose value is missing or
    unknown. *)
Definition error_site (e : ParseError) (argv : list jsstring) : Prop :=
  exists pre arg tl,
    argv = pre ++ arg :: tl /\
    ((classify arg = TModel /\ truthy (head tl) = false /\ e = MissingModelValue) \/
     (classify arg = TAgent /\ normalizeAgent (head tl) = None /\
      e = InvalidAgent (head tl))).

(** The arguments the template and the forwarded tokens give before the
    model is considered. *)
Definition assembled (p : RunParams) : list jsstring :=
  int_args (interpolateArgs (cfg_args (rp_config p)) (rp_prompt p)) ++ rp_passthrough p.

(** The model flag and value [runAgent] appends, if it appends them. *)
Definition model_pair (env : Env) (p : RunParams) : list jsstring :=
  match rp_modelId p with
  | Some (c :: m) =>
      if hasFlag (assembled p) (getModelFlag env (cfg_name (rp_config p)))
      then []
      else [getModelFlag env (cfg_name (rp_config p)); c :: m]
  | _ => []
  end.

(** The prompt as a last argument, if [runAgent] appends it. *)
Definition prompt_arg (p : RunParams) : list jsstring :=
  match rp_prompt p, rp_inputMode p with
  | _ :: _, (InArg | InAuto) =>
      if int_usedPrompt (interpolateArgs (cfg_args (rp_config p)) (rp_prompt p))
      then []
      else [rp_prompt p]
  | _, _ => []
  end.

(** How many arguments are the flag or its [flag=value] form. *)
Definition flag_count (flag : jsstring) (args : list jsstring) : nat :=
  length (List.filter (matches_flag flag) args).

(** A string without whitespace. *)
Definition spaceless (s : jsstring) : Prop :=
  Forall (fun c => is_white c = false) s.

(** The bare record of a line and what the read of its file adds. *)
Definition enriched {rt : Runtime} (readFile : jsstring -> option (list byte))
    (cwd : jsstring) (cap : Q) (includeContent : bool)
    (status file : jsstring) : Change :=
  let change := mkChange file status None None None in
  if includeContent then
    match readFile (path_resolve [cwd; file]) with
    | Some data => record_content cap data change
    | None => change
    end
  else change.

(** What has happened when [main] ends with an agent run. *)
Definition agent_was_run {rt : Runtime} (w : World) (rawArgs : list jsstring)
    (selected : AgentConfig) (parsed : Parsed) (dir : jsstring) : Prop :=
  parseArgs (w_env w) (w_cwd w) rawArgs = inr parsed /\
  opt_help (p_options parsed) = false /\
  opt_list (p_options parsed) = false /\
  opt_agent (p_options parsed) = Some (cfg_name selected) /\
  In selected (buildAgentConfigs (w_env w)) /\
  w_commandExists w (cfg_cmd selected) = true /\
  opt_dir (p_options parsed) = Some dir.

(** A world with another repository state: another outcome of the
    status query and other files. *)
Definition with_repository (git : jsstring -> jsstring * option Z)
    (readFile : jsstring -> option (list byte)) (w : World) : World :=
  mkWorld (w_env w) (w_cwd w) (w_win32 w) (w_commandExists w) (w_skills w)
    (w_agent w) git readFile.

(** * Properties *)

(** ** The binary classifier *)

Section Classifier.

(** The loop either stops at the first null byte or counts the
    non-printable bytes of the whole sample. *)
Lemma isProbablyBinary_loop_spec (sample : list byte) (n : nat) :
  isProbablyBinary_loop sample n =
    if existsb is_null sample then None
    else Some (n + length (List.filter is_nonPrintable sample)).
Proof.
  revert n. induction sample as [|b rest IH]; intros n; simpl.
  - f_equal. lia.
  - unfold is_null at 1. destruct (N.eqb (Byte.to_N b) 0) eqn:Hz; simpl; [reflexivity|].
    unfold is_nonPrintable at 1.
    destruct (isPrintable (Byte.to_N b)); simpl; rewrite IH;
      destruct (existsb is_null rest); try reflexivity; f_equal; lia.
Qed.

(** The ratio test on rationals is the cross-multiplied integer test. *)
Lemma Qle_bool_ratio (n len : Z) :
  (0 < len)%Z ->
  Qle_bool (inject_Z n / inject_Z len) (3 # 10) = (10 * n <=? 3 * len)%Z.
Proof.
  intros Hlen. destruct len as [|p|p]; try lia.
  apply eq_true_iff_eq. rewrite Qle_bool_iff, Z.leb_le.
  unfold Qle, Qdiv, Qmult, Qinv, inject_Z. simpl. lia.
Qed.

Lemma ratio_exceeds_spec (n len : nat) :
  0 < len -> ratio_exceeds n len = Nat.ltb (3 * len) (10 * n).
Proof.
  intros Hlen. unfold ratio_exceeds, Qgtb.
  rewrite Qle_bool_ratio by lia.
  destruct (Nat.ltb_spec (3 * len) (10 * n)), (Z.leb_spec (10 * Z.of_nat n) (3 * Z.of_nat len));
    simpl; try reflexivity; lia.
Qed.

(** For every sample length from 1 to 8000 the test on doubles agrees
    with the exact test at the extreme numerators and at the two
    numerators around the 30% threshold; between them the rounded
    quotient is monotone in the numerator. *)
Lemma double_ratio_agrees :
  forallb Doubles.agree_at (Doubles.lengths 1 (Z.to_nat 8000)) = true.
Proof. vm_compute. reflexivity. Qed.

(** A null byte in the sample decides. *)
Lemma isProbablyBinary_null (buffer : list byte) :
  existsb is_null (take (Z.to_nat 8000) buffer) = true ->
  isProbablyBinary buffer = true.
Proof.
  intros Hnull. unfold isProbablyBinary. cbv zeta.
  rewrite isProbablyBinary_loop_spec, Hnull. reflexivity.
Qed.

(** The code's byte test accepts exactly the text bytes. *)
Lemma isPrintable_text_byte (n : N) : isPrintable n = true <-> text_byte n.
Proof.
  unfold isPrintable, text_byte.
  rewrite !orb_true_iff, andb_true_iff, !N.eqb_eq, !N.leb_le. tauto.
Qed.

Lemma nonPrintable_count (sample : list byte) :
  length (List.filter is_nonPrintable sample) =
  length (filter (fun b => ~ text_byte (Byte.to_N b)) sample).
Proof.
  induction sample as [|b rest IH]; [reflexivity|].
  cbn [List.filter]. unfold is_nonPrintable at 1.
  destruct (isPrintable (Byte.to_N b)) eqn:Hp; cbn [negb].
  - rewrite filter_cons_False; [exact IH|].
    intros Hn. apply Hn. apply isPrintable_text_byte. exact Hp.
  - rewrite filter_cons_True; [cbn [length]; f_equal; exact IH|].
    intros Ht. apply isPrintable_text_byte in Ht. congruence.
Qed.

Lemma null_in_sample (sample : list byte) :
  existsb is_null sample = true <-> Exists (fun b => Byte.to_N b = 0%N) sample.
Proof.
  rewrite existsb_exists, Exists_exists. unfold is_null.
  split; intros (b & Hin & Hb); exists b; split;
    try (apply list_elem_of_In; exact Hin); try (apply list_elem_of_In in Hin; exact Hin);
    apply N.eqb_eq; exact Hb.
Qed.

(** C6. The classifier answers [true] exactly in two cases: one of the
    first 8000 bytes is zero; or at least one byte was sampled and the
    sampled bytes that are not tab (9), line feed (10), carriage return
    (13) or in 32..126 are more than 30% of the sample, that is, ten
    times their count exceeds three times the sample length. An empty
    buffer is therefore not binary. *)
Theorem isProbablyBinary_spec (buffer : list byte) :
  let sample := take (Z.to_nat 8000) buffer in
  let outside := filter (fun b => ~ text_byte (Byte.to_N b)) sample in
  isProbablyBinary buffer = true <->
    Exists (fun b => Byte.to_N b = 0%N) sample \/
    (0 < length sample /\ 3 * length sample < 10 * length outside).
Proof.
  cbv zeta. unfold isProbablyBinary. cbv zeta.
  generalize (take (Z.to_nat 8000) buffer) as sample. intros sample.
  rewrite isProbablyBinary_loop_spec, <- null_in_sample, <- nonPrintable_count.
  destruct (existsb is_null sample); [split; auto|].
  cbn [Nat.add]. rewrite andb_true_iff, Nat.ltb_lt. split.
  - intros [Hpos Hratio]. right. split; [exact Hpos|].
    rewrite ratio_exceeds_spec in Hratio by exact Hpos.
    apply Nat.ltb_lt. exact Hratio.
  - intros [Hnull|[Hpos Hratio]]; [discriminate|]. split; [exact Hpos|].
    rewrite ratio_exceeds_spec by exact Hpos. apply Nat.ltb_lt. exact Hratio.
Qed.

End Classifier.

(** ** The argument parser *)

Section Parser.

Context {rt : Runtime}.

(** Induction over a token list two tokens at a time, as the loop
    consumes an option together with its value. *)
Lemma list_pair_ind {A : Type} (P : list A -> Prop) :
  P [] ->
  (forall a, P [a]) ->
  (forall a b l, P l -> P (b :: l) -> P (a :: b :: l)) ->
  forall l, P l.
Proof.
  intros Hnil Hone Hstep l.
  assert (H : P l /\ forall a, P (a :: l)).
  { induction l as [|b l [IH1 IH2]]; split; auto. }
  apply H.
Qed.

(** Once the delimiter has been passed, every token is forwarded. *)
Lemma parseArgs_loop_passthrough (rest : list jsstring) (st : ParseState) :
  st_inPassthrough st = true ->
  parseArgs_loop rest st =
    inr (mkParseState (st_options st) (st_positional st)
           (st_passthrough st ++ rest) true).
Proof.
  revert st. induction rest as [|arg tl IH]; intros st Hin; simpl.
  - rewrite app_nil_r. destruct st; simpl in *; subst; reflexivity.
  - rewrite Hin. rewrite IH by assumption. simpl.
    rewrite <- app_assoc. reflexivity.
Qed.


(** One turn of the loop. *)
Lemma parseArgs_loop_cons (arg : jsstring) (tl : list jsstring) (st : ParseState) :
  parseArgs_loop (arg :: tl) st =
    let next := head tl in
    let continue1 := parseArgs_loop tl in
    let continue2 :=
      match tl with
      | [] => inr
      | _ :: tl' => parseArgs_loop tl'
      end in
    if st_inPassthrough st then continue1 (push_passthrough arg st)
    else
      match classify arg with
      | TDelimiter => continue1 (enter_passthrough st)
      | THelp => continue1 (update_options (set_help true) st)
      | TList => continue1 (update_options (set_list true) st)
      | TAgent =>
          match normalizeAgent next with
          | None => inl (InvalidAgent next)
          | Some agent => continue2 (update_options (set_agent agent) st)
          end
      | TDir => continue2 (update_options (set_dir next) st)
      | TModel =>
          match next with
          | Some (c :: value) =>
              continue2 (update_options (set_modelId (c :: value)) st)
          | _ => inl MissingModelValue
          end
      | TFormat =>
          continue2 (update_options (set_format (normalizeFormat next)) st)
      | TJson => continue1 (update_options (set_format FmtJson) st)
      | TText => continue1 (update_options (set_format FmtText) st)
      | TInput =>
          continue2 (update_options (set_input (normalizeInput next)) st)
      | TArg => continue1 (update_options (set_input InArg) st)
      | TStdin => continue1 (update_options (set_input InStdin) st)
      | TNoInput => continue1 (update_options (set_input InNone) st)
      | TMaxBytes =>
          continue2 (update_options (set_maxBytes (normalizeMaxBytes next)) st)
      | TNoContent => continue1 (update_options (set_includeContent false) st)
      | TContent => continue1 (update_options (set_includeContent true) st)
      | TPositional => continue1 (push_positional arg st)
      end.
Proof. reflexivity. Qed.

Lemma complete_cons (arg : jsstring) (tl : list jsstring) :
  complete (arg :: tl) =
    match classify arg with
    | TDelimiter => false
    | t =>
        if takes_value t
        then match tl with
             | [] => false
             | _ :: tl' => complete tl'
             end
        else complete tl
    end.
Proof. reflexivity. Qed.

Lemma positional_tokens_cons (arg : jsstring) (tl : list jsstring) :
  positional_tokens (arg :: tl) =
    match classify arg with
    | TDelimiter => []
    | TPositional => arg :: positional_tokens tl
    | t =>
        if takes_value t
        then match tl with
             | [] => []
             | _ :: tl' => positional_tokens tl'
             end
        else positional_tokens tl
    end.
Proof. reflexivity. Qed.

(** Unfold one turn of the loop outside pass-through mode. *)
Ltac loop_turn a tl st Hin :=
  rewrite (parseArgs_loop_cons a tl st); cbv beta iota zeta; rewrite ?Hin;
  cbn [hd_error].
Ltac loop_turn_in Hin H :=
  rewrite parseArgs_loop_cons in H; cbv beta iota zeta in H; rewrite Hin in H;
  cbn [hd_error] in H.

(** A complete run of tokens is parsed on its own: the loop goes on
    with what follows it. *)
Lemma parseArgs_loop_app (pre suffix : list jsstring) (st : ParseState) :
  complete pre = true ->
  st_inPassthrough st = false ->
  parseArgs_loop (pre ++ suffix) st =
    match parseArgs_loop pre st with
    | inl e => inl e
    | inr st' => parseArgs_loop suffix st'
    end.
Proof.
  revert st.
  induction pre as [|a|a b l IH2 IH1] using list_pair_ind; intros st Hc Hin.
  - reflexivity.
  - rewrite complete_cons in Hc. change ([a] ++ suffix) with (a :: suffix).
    loop_turn a suffix st Hin. loop_turn a (@nil (list N)) st Hin.
    destruct (classify a); cbn [takes_value] in Hc; try discriminate;
      destruct suffix; reflexivity.
  - rewrite complete_cons in Hc.
    change ((a :: b :: l) ++ suffix) with (a :: b :: (l ++ suffix)).
    loop_turn a (b :: l ++ suffix) st Hin. loop_turn a (b :: l) st Hin.
    change (b :: l ++ suffix) with ((b :: l) ++ suffix).
    destruct (classify a); cbn [takes_value] in Hc; try discriminate;
      cbv beta iota;
      try (apply (IH1 _ Hc); exact Hin);
      try (apply (IH2 _ Hc); exact Hin).
    + destruct (normalizeAgent (Some b)); [|reflexivity].
      apply (IH2 _ Hc); exact Hin.
    + destruct b; [reflexivity|]. apply (IH2 _ Hc); exact Hin.
Qed.

(** After a complete run the loop is still outside pass-through mode
    and has forwarded nothing more. *)
Lemma parseArgs_loop_complete (pre : list jsstring) (st st' : ParseState) :
  complete pre = true ->
  st_inPassthrough st = false ->
  parseArgs_loop pre st = inr st' ->
  st_inPassthrough st' = false /\ st_passthrough st' = st_passthrough st.
Proof.
  revert st.
  induction pre as [|a|a b l IH2 IH1] using list_pair_ind; intros st Hc Hin Hrun.
  - simpl in Hrun. injection Hrun as <-. auto.
  - rewrite complete_cons in Hc. loop_turn_in Hin Hrun.
    destruct (classify a); cbn [takes_value] in Hc; try discriminate;
      injection Hrun as <-; auto.
  - rewrite complete_cons in Hc. loop_turn_in Hin Hrun.
    destruct (classify a); cbn [takes_value] in Hc; try discriminate;
      try (apply (IH1 _ Hc) in Hrun; [exact Hrun | exact Hin]);
      try (apply (IH2 _ Hc) in Hrun; [exact Hrun | exact Hin]).
    + destruct (normalizeAgent (Some b)); [|discriminate].
      apply (IH2 _ Hc) in Hrun; [exact Hrun | exact Hin].
    + destruct b; [discriminate|].
      apply (IH2 _ Hc) in Hrun; [exact Hrun | exact Hin].
Qed.

(** The loop collects exactly the positional tokens. *)
Lemma parseArgs_loop_positional (rest : list jsstring) (st st' : ParseState) :
  st_inPassthrough st = false ->
  parseArgs_loop rest st = inr st' ->
  st_positional st' = st_positional st ++ positional_tokens rest.
Proof.
  revert st.
  induction rest as [|a|a b l IH2 IH1] using list_pair_ind; intros st Hin Hrun.
  - simpl in Hrun |- *. injection Hrun as <-. rewrite app_nil_r. reflexivity.
  - rewrite positional_tokens_cons. loop_turn_in Hin Hrun.
    destruct (classify a); cbn [takes_value];
      try (injection Hrun as <-; simpl; rewrite ?app_nil_r; reflexivity);
      try discriminate.
  - rewrite positional_tokens_cons. loop_turn_in Hin Hrun.
    destruct (classify a); cbn [takes_value];
      try (apply IH1 in Hrun; [exact Hrun | exact Hin]);
      try (apply IH2 in Hrun; [exact Hrun | exact Hin]).
    + rewrite parseArgs_loop_passthrough in Hrun by reflexivity.
      injection Hrun as <-. simpl. rewrite app_nil_r. reflexivity.
    + destruct (normalizeAgent (Some b)); [|discriminate].
      apply IH2 in Hrun; [exact Hrun | exact Hin].
    + destruct b; [discriminate|].
      apply IH2 in Hrun; [exact Hrun | exact Hin].
    + apply IH1 in Hrun; [|exact Hin]. rewrite Hrun. simpl.
      rewrite <- app_assoc. reflexivity.
Qed.

Lemma error_site_cons (e : ParseError) (a : jsstring) (l : list jsstring) :
  error_site e l -> error_site e (a :: l).
Proof.
  intros (pre & arg & tl & -> & H). exists (a :: pre), arg, tl. auto.
Qed.

Lemma parseArgs_loop_error (rest : list jsstring) (st : ParseState) (e : ParseError) :
  parseArgs_loop rest st = inl e -> error_site e rest.
Proof.
  revert st.
  induction rest as [|a|a b l IH2 IH1] using list_pair_ind; intros st Hrun.
  - discriminate.
  - rewrite parseArgs_loop_cons in Hrun. cbv beta iota zeta in Hrun.
    cbn [hd_error] in Hrun.
    destruct (st_inPassthrough st); [discriminate|].
    destruct (classify a) eqn:Hk; try discriminate.
    + simpl in Hrun. injection Hrun as <-.
      exists [], a, []. split; [reflexivity|]. right. auto.
    + injection Hrun as <-.
      exists [], a, []. split; [reflexivity|]. left. auto.
  - rewrite parseArgs_loop_cons in Hrun. cbv beta iota zeta in Hrun.
    cbn [hd_error] in Hrun.
    destruct (st_inPassthrough st).
    { apply IH1 in Hrun. apply error_site_cons. exact Hrun. }
    destruct (classify a) eqn:Hk;
      try (apply IH1 in Hrun; apply error_site_cons; exact Hrun);
      try (apply IH2 in Hrun; do 2 apply error_site_cons; exact Hrun).
    + destruct (normalizeAgent (Some b)) eqn:Hn.
      * apply IH2 in Hrun; do 2 apply error_site_cons; exact Hrun.
      * injection Hrun as <-. exists [], a, (b :: l).
        split; [reflexivity|]. right. auto.
    + destruct b.
      * injection Hrun as <-. exists [], a, ([] :: l).
        split; [reflexivity|]. left. auto.
      * apply IH2 in Hrun; do 2 apply error_site_cons; exact Hrun.
Qed.


(** What [parseArgs] returns for a complete run of tokens determines
    what it returns when more tokens follow. *)
Lemma parseArgs_app (env : Env) (cwd : jsstring) (pre suffix : list jsstring) (r0 : Parsed) :
  complete pre = true ->
  parseArgs env cwd pre = inr r0 ->
  exists st0,
    r0 = parsed_of st0 /\
    st_inPassthrough st0 = false /\
    st_passthrough st0 = [] /\
    parseArgs env cwd (pre ++ suffix) =
      match parseArgs_loop suffix st0 with
      | inl e => inl e
      | inr st => inr (parsed_of st)
      end.
Proof.
  intros Hc Hrun. unfold parseArgs in Hrun |- *.
  rewrite (parseArgs_loop_app pre suffix _ Hc) by reflexivity.
  destruct (parseArgs_loop pre _) as [e|st0] eqn:Hpre; [discriminate|].
  injection Hrun as <-.
  destruct (parseArgs_loop_complete pre
              (mkParseState (initial_options env cwd) [] [] false) st0 Hc eq_refl Hpre)
    as [Hin Hpt].
  exists st0. auto.
Qed.

(** An option and its value after a complete run. *)
Lemma parseArgs_loop_format (flag : jsstring) (value : option jsstring) (st : ParseState) :
  st_inPassthrough st = false -> classify flag = TFormat ->
  parseArgs_loop (flag :: option_list value) st =
    inr (update_options (set_format (normalizeFormat value)) st).
Proof.
  intros Hin Hk. rewrite parseArgs_loop_cons. cbv beta iota zeta.
  rewrite Hin, Hk. destruct value; reflexivity.
Qed.

Lemma parseArgs_loop_input (flag : jsstring) (value : option jsstring) (st : ParseState) :
  st_inPassthrough st = false -> classify flag = TInput ->
  parseArgs_loop (flag :: option_list value) st =
    inr (update_options (set_input (normalizeInput value)) st).
Proof.
  intros Hin Hk. rewrite parseArgs_loop_cons. cbv beta iota zeta.
  rewrite Hin, Hk. destruct value; reflexivity.
Qed.

Lemma parseArgs_loop_maxBytes (flag : jsstring) (value : option jsstring) (st : ParseState) :
  st_inPassthrough st = false -> classify flag = TMaxBytes ->
  parseArgs_loop (flag :: option_list value) st =
    inr (update_options (set_maxBytes (normalizeMaxBytes value)) st).
Proof.
  intros Hin Hk. rewrite parseArgs_loop_cons. cbv beta iota zeta.
  rewrite Hin, Hk. destruct value; reflexivity.
Qed.

Lemma parseArgs_loop_dir (flag : jsstring) (value : option jsstring) (st : ParseState) :
  st_inPassthrough st = false -> classify flag = TDir ->
  parseArgs_loop (flag :: option_list value) st =
    inr (update_options (set_dir value) st).
Proof.
  intros Hin Hk. rewrite parseArgs_loop_cons. cbv beta iota zeta.
  rewrite Hin, Hk. destruct value; reflexivity.
Qed.

(** The values the normalizers send to the defaults. *)
Lemma normalizeFormat_other (v : jsstring) :
  v <> lit "json" -> v <> lit "text" -> normalizeFormat (Some v) = DEFAULT_FORMAT.
Proof.
  intros H1 H2. unfold normalizeFormat, str_eqb.
  rewrite !bool_decide_eq_false_2 by assumption. reflexivity.
Qed.

Lemma normalizeInput_other (v : jsstring) :
  v <> lit "auto" -> v <> lit "arg" -> v <> lit "stdin" -> v <> lit "none" ->
  normalizeInput (Some v) = DEFAULT_INPUT.
Proof.
  intros H1 H2 H3 H4. unfold normalizeInput, str_eqb.
  rewrite !bool_decide_eq_false_2 by assumption. reflexivity.
Qed.

Lemma normalizeAgent_other (v : jsstring) :
  v <> lit "codex" -> v <> lit "claude" -> v <> lit "cursor" ->
  normalizeAgent (Some v) = None.
Proof.
  intros H1 H2 H3. unfold normalizeAgent, str_eqb.
  rewrite !bool_decide_eq_false_2 by assumption. reflexivity.
Qed.

Lemma normalizeMaxBytes_other (v : jsstring) :
  (forall q, StringToNumber v = Finite q -> ~ (0 < q)%Q) ->
  normalizeMaxBytes (Some v) = DEFAULT_MAX_BYTES.
Proof.
  intros H. unfold normalizeMaxBytes, Number.
  destruct (StringToNumber v) as [| | |q] eqn:Hn; try reflexivity.
  unfold Qgtb. destruct (Qle_bool q 0) eqn:Hle; [reflexivity|].
  exfalso. apply (H q eq_refl). apply Qnot_le_lt. intros Hq.
  apply Qle_bool_iff in Hq. congruence.
Qed.

(** Without an agent option the agent of the initial options stays. *)
Lemma parseArgs_loop_agent (rest : list jsstring) (st st' : ParseState) :
  Forall (fun a => classify a <> TAgent) rest ->
  parseArgs_loop rest st = inr st' ->
  opt_agent (st_options st') = opt_agent (st_options st).
Proof.
  revert st.
  induction rest as [|a|a b l IH2 IH1] using list_pair_ind; intros st Hall Hrun.
  - simpl in Hrun. injection Hrun as <-. reflexivity.
  - rewrite parseArgs_loop_cons in Hrun. cbv beta iota zeta in Hrun.
    cbn [hd_error] in Hrun. apply Forall_cons in Hall as [Ha _].
    destruct (st_inPassthrough st); [injection Hrun as <-; reflexivity|].
    destruct (classify a); try congruence; try discriminate;
      injection Hrun as <-; reflexivity.
  - rewrite parseArgs_loop_cons in Hrun. cbv beta iota zeta in Hrun.
    cbn [hd_error] in Hrun. apply Forall_cons in Hall as [Ha Hbl].
    pose proof Hbl as Hl. apply Forall_cons in Hl as [_ Hl].
    destruct (st_inPassthrough st); [apply (IH1 _ Hbl) in Hrun; exact Hrun|].
    destruct (classify a); try congruence;
      try (apply (IH1 _ Hbl) in Hrun; exact Hrun);
      try (apply (IH2 _ Hl) in Hrun; exact Hrun).
    destruct b; [discriminate|]. apply (IH2 _ Hl) in Hrun; exact Hrun.
Qed.



(** C5, as the program has it. A value outside codex, claude and cursor
    normalizes to no agent. Supplied through the environment it leaves
    the agent unselected and raises nothing: on a command line without
    an agent option, parsing either succeeds with no agent or fails for
    a missing model value. Supplied after the agent option it makes
    parsing fail at once with the invalid-agent error. *)
Theorem unknown_agent_resolution (v : jsstring) :
  v <> lit "codex" -> v <> lit "claude" -> v <> lit "cursor" ->
  normalizeAgent (Some v) = None /\
  (forall env cwd argv,
      getEnvValue env (lit "AGENT") = Some v ->
      Forall (fun a => classify a <> TAgent) argv ->
      match parseArgs env cwd argv with
      | inl e => e = MissingModelValue
      | inr r => opt_agent (p_options r) = None
      end) /\
  (forall env cwd pre flag rest r0,
      complete pre = true ->
      parseArgs env cwd pre = inr r0 ->
      classify flag = TAgent ->
      parseArgs env cwd (pre ++ flag :: v :: rest) = inl (InvalidAgent (Some v))).
Proof.
  intros H1 H2 H3.
  pose proof (normalizeAgent_other v H1 H2 H3) as Hnone.
  split; [exact Hnone|]. split.
  - intros env cwd argv Henv Hall.
    destruct (parseArgs env cwd argv) as [e|r] eqn:Hrun.
    + unfold parseArgs in Hrun.
      destruct (parseArgs_loop argv _) as [e'|st] eqn:Hloop; [|discriminate].
      injection Hrun as ->.
      apply parseArgs_loop_error in Hloop.
      destruct Hloop as (pre & arg & tl & -> & [(_ & _ & He)|(Hk & _ & _)]).
      * exact He.
      * exfalso. rewrite Forall_app in Hall. destruct Hall as [_ Hall].
        apply Forall_cons in Hall as [Ha _]. contradiction.
    + unfold parseArgs in Hrun.
      destruct (parseArgs_loop argv _) as [e'|st] eqn:Hloop; [discriminate|].
      injection Hrun as <-. cbn [p_options].
      rewrite (parseArgs_loop_agent _ _ _ Hall Hloop).
      cbn [st_options initial_options opt_agent].
      rewrite Henv. exact Hnone.
  - intros env cwd pre flag rest r0 Hc Hrun Hk.
    destruct (parseArgs_app env cwd pre (flag :: v :: rest) r0 Hc Hrun)
      as (st0 & _ & Hin & _ & ->).
    rewrite parseArgs_loop_cons. cbv beta iota zeta. rewrite Hin, Hk.
    cbn [hd_error]. rewrite Hnone. reflexivity.
Qed.

(** C10, as the program has it. Parsing fails only at a model option
    whose following token is missing or empty and at an agent option
    whose following token is missing or invalid, and after a complete
    run of tokens it does fail there. After a complete run of
    tokens, the format, input-mode and byte-cap options take the
    normalized value of their following token, which is the built-in
    default when the token is missing or not recognized, and the
    directory option takes its following token as it is, undefined when
    there is none; none of them fails. *)
Theorem parse_errors_and_fallbacks (env : Env) (cwd : jsstring) :
  (forall argv e, parseArgs env cwd argv = inl e -> error_site e argv) /\
  (forall pre flag value r0,
      complete pre = true ->
      parseArgs env cwd pre = inr r0 ->
      (classify flag = TFormat ->
       parseArgs env cwd (pre ++ flag :: option_list value) =
         inr (map_options (set_format (normalizeFormat value)) r0)) /\
      (classify flag = TInput ->
       parseArgs env cwd (pre ++ flag :: option_list value) =
         inr (map_options (set_input (normalizeInput value)) r0)) /\
      (classify flag = TMaxBytes ->
       parseArgs env cwd (pre ++ flag :: option_list value) =
         inr (map_options (set_maxBytes (normalizeMaxBytes value)) r0)) /\
      (classify flag = TDir ->
       parseArgs env cwd (pre ++ flag :: option_list value) =
         inr (map_options (set_dir value) r0))) /\
  (forall pre flag tl r0,
      complete pre = true ->
      parseArgs env cwd pre = inr r0 ->
      (classify flag = TModel -> truthy (head tl) = false ->
       parseArgs env cwd (pre ++ flag :: tl) = inl MissingModelValue) /\
      (classify flag = TAgent -> normalizeAgent (head tl) = None ->
       parseArgs env cwd (pre ++ flag :: tl) = inl (InvalidAgent (head tl)))) /\
  (normalizeFormat None = DEFAULT_FORMAT /\
   forall v, v <> lit "json" -> v <> lit "text" ->
             normalizeFormat (Some v) = DEFAULT_FORMAT) /\
  (normalizeInput None = DEFAULT_INPUT /\
   forall v, v <> lit "auto" -> v <> lit "arg" -> v <> lit "stdin" ->
             v <> lit "none" -> normalizeInput (Some v) = DEFAULT_INPUT) /\
  (normalizeMaxBytes None = DEFAULT_MAX_BYTES /\
   forall v, (forall q, StringToNumber v = Finite q -> ~ (0 < q)%Q) ->
             normalizeMaxBytes (Some v) = DEFAULT_MAX_BYTES).
Proof.
  split; [|split; [|split; [|split; [|split]]]].
  - intros argv e Hrun. unfold parseArgs in Hrun.
    destruct (parseArgs_loop argv _) as [e'|st] eqn:Hloop; [|discriminate].
    injection Hrun as ->. exact (parseArgs_loop_error _ _ _ Hloop).
  - intros pre flag value r0 Hc Hrun.
    destruct (parseArgs_app env cwd pre (flag :: option_list value) r0 Hc Hrun)
      as (st0 & -> & Hin & _ & ->).
    repeat split; intros Hk.
    + rewrite parseArgs_loop_format by assumption. reflexivity.
    + rewrite parseArgs_loop_input by assumption. reflexivity.
    + rewrite parseArgs_loop_maxBytes by assumption. reflexivity.
    + rewrite parseArgs_loop_dir by assumption. reflexivity.
  - intros pre flag tl r0 Hc Hrun.
    destruct (parseArgs_app env cwd pre (flag :: tl) r0 Hc Hrun)
      as (st0 & _ & Hin & _ & ->).
    rewrite parseArgs_loop_cons. cbv beta iota zeta. rewrite Hin.
    split; intros Hk Hbad; rewrite Hk.
    + destruct (head tl) as [[|c value]|]; try reflexivity. discriminate Hbad.
    + rewrite Hbad. reflexivity.
  - split; [reflexivity | exact normalizeFormat_other].
  - split; [reflexivity | exact normalizeInput_other].
  - split; [reflexivity | exact normalizeMaxBytes_other].
Qed.

(** The tokens after the delimiter are the forwarded tokens. *)
Lemma parseArgs_delimiter (env : Env) (cwd : jsstring)
    (pre trailing : list jsstring) (r0 : Parsed) :
  complete pre = true ->
  parseArgs env cwd pre = inr r0 ->
  parseArgs env cwd (pre ++ lit "--" :: trailing) = inr (with_passthrough trailing r0).
Proof.
  intros Hc Hrun.
  destruct (parseArgs_app env cwd pre (lit "--" :: trailing) r0 Hc Hrun)
    as (st0 & -> & Hin & Hpt & ->).
  rewrite parseArgs_loop_cons. cbv beta iota zeta. rewrite Hin.
  change (classify (lit "--")) with TDelimiter. cbv beta iota.
  rewrite parseArgs_loop_passthrough by reflexivity.
  unfold parsed_of, with_passthrough. cbn. rewrite Hpt. reflexivity.
Qed.

End Parser.

(** ** The argument interpolator and the process runner *)

Section Runner.

(** A template without the placeholder passes through unchanged. *)
Lemma interpolateArgs_no_placeholder (args : list jsstring) (prompt : jsstring) :
  Forall (fun arg => includes arg (lit "{prompt}") = false) args ->
  interpolateArgs args prompt = {| int_args := args; int_usedPrompt := false |}.
Proof.
  induction 1 as [|arg rest Harg _ IH]; cbn [interpolateArgs].
  - reflexivity.
  - rewrite Harg, IH. reflexivity.
Qed.

Lemma baseArgs_shape (env : Env) (p : RunParams) :
  baseArgs env p = assembled p ++ model_pair env p.
Proof.
  unfold baseArgs, model_pair, assembled. cbv zeta.
  destruct (rp_modelId p) as [[|c m]|]; rewrite ?app_nil_r; try reflexivity.
  destruct (hasFlag _ _); cbn [negb]; rewrite ?app_nil_r; reflexivity.
Qed.

(** The final argument list: template, forwarded tokens, model pair,
    prompt. *)
Lemma finalArgs_shape (env : Env) (p : RunParams) :
  l_args (runAgent_launch env p) =
    assembled p ++ model_pair env p ++ prompt_arg p.
Proof.
  unfold runAgent_launch. cbv zeta. cbn [l_args].
  unfold delivery, prompt_arg. cbv zeta. rewrite app_assoc, <- baseArgs_shape.
  destruct (rp_prompt p) as [|c s]; [cbn; rewrite app_nil_r; reflexivity|].
  destruct (rp_inputMode p); cbn [finalArgs];
    try destruct (int_usedPrompt _); cbn [negb finalArgs];
    rewrite ?app_nil_r; reflexivity.
Qed.

Lemma flag_count_app (flag : jsstring) (l1 l2 : list jsstring) :
  flag_count flag (l1 ++ l2) = flag_count flag l1 + flag_count flag l2.
Proof. unfold flag_count. rewrite List.filter_app, length_app. reflexivity. Qed.

Lemma hasFlag_count (flag : jsstring) (args : list jsstring) :
  hasFlag args flag = true -> 1 <= flag_count flag args.
Proof.
  unfold hasFlag, flag_count. induction args as [|a l IH]; cbn; [discriminate|].
  destruct (matches_flag flag a); cbn; [lia|]. exact IH.
Qed.

(** C3, as the program has it. When a model is supplied and the
    assembled arguments already hold the model flag, no flag/value pair
    is appended: the final list is the assembled list, followed only by
    the prompt when the prompt is passed as an argument. The flag is
    neither added nor removed, so it occurs as often as it was supplied,
    at least once. *)
Theorem model_flag_not_appended (env : Env) (p : RunParams) (m : jsstring) :
  rp_modelId p = Some m ->
  hasFlag (assembled p) (getModelFlag env (cfg_name (rp_config p))) = true ->
  baseArgs env p = assembled p /\
  l_args (runAgent_launch env p) = assembled p ++ prompt_arg p /\
  flag_count (getModelFlag env (cfg_name (rp_config p))) (l_args (runAgent_launch env p)) =
    flag_count (getModelFlag env (cfg_name (rp_config p))) (assembled p)
    + flag_count (getModelFlag env (cfg_name (rp_config p))) (prompt_arg p) /\
  1 <= flag_count (getModelFlag env (cfg_name (rp_config p))) (assembled p).
Proof.
  intros Hm Hhas.
  assert (Hpair : model_pair env p = []).
  { unfold model_pair. rewrite Hm, Hhas. destruct m; reflexivity. }
  assert (Hfinal : l_args (runAgent_launch env p) = assembled p ++ prompt_arg p).
  { rewrite finalArgs_shape, Hpair. reflexivity. }
  split; [|split; [|split]].
  - rewrite baseArgs_shape, Hpair, app_nil_r. reflexivity.
  - exact Hfinal.
  - rewrite Hfinal. apply flag_count_app.
  - apply hasFlag_count. exact Hhas.
Qed.

(** C8. When the child ends without an exit code, [runAgent] returns
    exit code 0, and it returns the argument list given to [spawn]. *)
Theorem runAgent_no_exit_code (env : Env) (child : Launch -> option Z) (p : RunParams) :
  child (runAgent_launch env p) = None ->
  exitCode (runAgent env child p) = 0%Z /\
  args (runAgent env child p) = l_args (runAgent_launch env p).
Proof.
  intros Hclose. unfold runAgent. cbv zeta. cbn [exitCode args].
  rewrite Hclose. split; reflexivity.
Qed.

End Runner.

(** ** Forwarded tokens, the change collector and the entry point *)

Section Collector.

Context {rt : Runtime}.

(** C2, as the program has it. The tokens after the delimiter are
    forwarded verbatim and in order, as one block right after the
    interpolated template arguments; the model pair, when one is
    appended, and the prompt, when it is passed as an argument, come
    after them. *)
Theorem passthrough_position (env : Env) (cwd : jsstring)
    (pre trailing : list jsstring) (r0 : Parsed) :
  complete pre = true ->
  parseArgs env cwd pre = inr r0 ->
  parseArgs env cwd (pre ++ lit "--" :: trailing) = inr (with_passthrough trailing r0) /\
  forall selected dir,
    let p := runParams selected dir (with_passthrough trailing r0) in
    l_args (runAgent_launch env p) =
      int_args (interpolateArgs (cfg_args selected) (p_prompt r0))
        ++ trailing ++ model_pair env p ++ prompt_arg p.
Proof.
  intros Hc Hrun. split.
  - exact (parseArgs_delimiter env cwd pre trailing r0 Hc Hrun).
  - intros selected dir p. rewrite finalArgs_shape. unfold assembled.
    rewrite <- app_assoc. reflexivity.
Qed.

(** What [main] puts in the structured record. *)
Lemma main_json (w : World) (rawArgs : list jsstring) (o : Output) :
  main w rawArgs = JsonOutput o ->
  exists selected parsed,
    parseArgs (w_env w) (w_cwd w) rawArgs = inr parsed /\
    let result :=
      runAgent (w_env w) (w_agent w) (runParams selected (out_cwd o) parsed) in
    ok o = (exitCode result =? 0)%Z /\
    out_exitCode o = exitCode result /\
    out_args o = args result /\
    changes o =
      getGitChanges (w_git w (out_cwd o)) (w_readFile w) (out_cwd o)
        (opt_maxBytes (p_options parsed)) (opt_includeContent (p_options parsed)).
Proof.
  unfold main. intros H.
  destruct (bool_decide _); [discriminate|].
  destruct (parseArgs _ _ _) as [e|parsed]; [discriminate|]. cbv zeta in H.
  destruct (opt_help _); [discriminate|].
  destruct (opt_list _); [discriminate|].
  destruct (opt_agent _); [|discriminate].
  destruct (selectAgent _ _) as [selected|]; [|discriminate].
  destruct (negb _); [discriminate|].
  destruct (opt_dir _) as [dir|]; [|discriminate].
  destruct (opt_format _).
  - injection H as <-. exists selected, parsed. cbn. auto.
  - destruct (negb _); discriminate.
Qed.

(** C7. When the status query does not exit with code 0, change
    collection returns the empty list; it has no failing path. In the
    structured record the changes are then empty, and [ok] says whether
    the exit code of the agent process, 0 when it ended without one, is
    0. *)
Theorem failed_status_query :
  (forall git readFile cwd maxBytes includeContent,
      snd git <> Some 0%Z ->
      getGitChanges git readFile cwd maxBytes includeContent = []) /\
  (forall w rawArgs o,
      main w rawArgs = JsonOutput o ->
      snd (w_git w (out_cwd o)) <> Some 0%Z ->
      changes o = [] /\
      ok o = (out_exitCode o =? 0)%Z /\
      exists p, out_exitCode o = default 0%Z (w_agent w (runAgent_launch (w_env w) p))).
Proof.
  assert (Hgit : forall git readFile cwd maxBytes includeContent,
             snd git <> Some 0%Z ->
             getGitChanges git readFile cwd maxBytes includeContent = []).
  { intros [stdout code] readFile cwd maxBytes includeContent Hcode.
    unfold getGitChanges. cbn [fst snd] in *.
    destruct code as [z|]; [|reflexivity]. change (default 1%Z (Some z)) with z.
    destruct (Z.eqb_spec z 0) as [->|Hz]; [congruence | reflexivity]. }
  split; [exact Hgit|].
  intros w rawArgs o Hmain Hcode.
  destruct (main_json w rawArgs o Hmain)
    as (selected & parsed & _ & Hok & Hexit & _ & Hchanges).
  split; [|split].
  - rewrite Hchanges. apply Hgit. exact Hcode.
  - rewrite Hok, Hexit. reflexivity.
  - eexists. rewrite Hexit. reflexivity.
Qed.


Lemma Qgtb_true (a b : Q) : Qgtb a b = true <-> (b < a)%Q.
Proof.
  unfold Qgtb. rewrite negb_true_iff, <- not_true_iff_false, Qle_bool_iff.
  split; [apply Qnot_le_lt | apply Qlt_not_le].
Qed.

Lemma Qgtb_false (a b : Q) : Qgtb a b = false <-> (a <= b)%Q.
Proof.
  unfold Qgtb. rewrite negb_false_iff, Qle_bool_iff. reflexivity.
Qed.

(** Below the end of the buffer, [subarray] keeps the whole part of a
    positive bound. *)
Lemma subarray_to_floor (cap : Q) (data : list byte) :
  (0 < cap)%Q ->
  (cap < inject_Z (Z.of_nat (length data)))%Q ->
  subarray_to cap data = take (Z.to_nat (Qfloor cap)) data /\
  length (take (Z.to_nat (Qfloor cap)) data) = Z.to_nat (Qfloor cap) /\
  (inject_Z (Z.of_nat (Z.to_nat (Qfloor cap))) <= cap)%Q.
Proof.
  intros Hpos Hlt.
  assert (H0 : (0 <= Qfloor cap)%Z).
  { change 0%Z with (Qfloor 0). apply Qfloor_resp_le. apply Qlt_le_weak. exact Hpos. }
  assert (Hlen : (Qfloor cap < Z.of_nat (length data))%Z).
  { rewrite Zlt_Qlt. eapply Qle_lt_trans; [apply Qfloor_le | exact Hlt]. }
  split; [|split].
  - unfold subarray_to, ToIntegerOrInfinity. cbv zeta.
    assert (Hle : Qle_bool 0 cap = true).
    { apply Qle_bool_iff. apply Qlt_le_weak. exact Hpos. }
    rewrite Hle. destruct (Z.ltb_spec (Qfloor cap) 0) as [Hneg|_]; [lia|].
    rewrite Z.min_l by lia. reflexivity.
  - rewrite length_take. lia.
  - rewrite Z2Nat.id by exact H0. apply Qfloor_le.
Qed.

Lemma record_content_path (cap : Q) (data : list byte) (change : Change) :
  ch_path (record_content cap data change) = ch_path change /\
  ch_status (record_content cap data change) = ch_status change.
Proof.
  unfold record_content.
  destruct (isProbablyBinary data); [split; reflexivity|].
  destruct (Qgtb _ _); split; reflexivity.
Qed.

(** Every record of the loop is the bare record of its path and status,
    enriched from the file at that path when the file can be read. *)
Lemma getGitChanges_loop_elem (readFile : jsstring -> option (list byte))
    (cwd : jsstring) (cap : Q) (lines : list jsstring) (c : Change) :
  c ∈ getGitChanges_loop readFile cwd cap true lines ->
  c = match readFile (path_resolve [cwd; ch_path c]) with
      | Some data =>
          record_content cap data (mkChange (ch_path c) (ch_status c) None None None)
      | None => mkChange (ch_path c) (ch_status c) None None None
      end.
Proof.
  induction lines as [|line rest IH]; cbn [getGitChanges_loop]; intros Hin.
  - apply elem_of_nil in Hin. contradiction.
  - cbv zeta in Hin. destruct (parse_line line) as [[status file]|]; [|auto].
    apply elem_of_cons in Hin as [->|Hin]; [|auto].
    destruct (readFile (path_resolve [cwd; file])) as [data|] eqn:Hread.
    + destruct (record_content_path cap data (mkChange file status None None None))
        as [Hp Hs].
      cbn [ch_path ch_status] in Hp, Hs. rewrite Hp, Hs, Hread. reflexivity.
    + cbn [ch_path ch_status]. rewrite Hread. reflexivity.
Qed.

(** C4, as the program has it. For a changed file that was read, with
    content inclusion on and a positive byte cap: a file classified as
    binary (in particular one with a null byte among its first 8000
    bytes) is recorded with the binary flag and without content,
    whatever its size; a file not classified as binary and not longer
    than the cap is recorded with its full decoded content and no
    truncation flag; one longer than the cap is recorded with the
    decoding of its first bytes, as many as the whole part of the cap
    (the cap itself when it is a whole number), and the truncation flag.
    The bytes behind recorded content never exceed the cap. *)
Theorem change_content (git : jsstring * option Z)
    (readFile : jsstring -> option (list byte)) (cwd : jsstring) (cap : Q)
    (c : Change) (data : list byte) :
  (0 < cap)%Q ->
  c ∈ getGitChanges git readFile cwd cap true ->
  readFile (path_resolve [cwd; ch_path c]) = Some data ->
  (isProbablyBinary data = true ->
   ch_content c = None /\ ch_truncated c = None /\ ch_binary c = Some true) /\
  (existsb is_null (take (Z.to_nat 8000) data) = true -> ch_content c = None) /\
  (isProbablyBinary data = false ->
   (inject_Z (Z.of_nat (length data)) <= cap)%Q ->
   ch_content c = Some (utf8_decode data) /\
   ch_truncated c = None /\ ch_binary c = None) /\
  (isProbablyBinary data = false ->
   (cap < inject_Z (Z.of_nat (length data)))%Q ->
   ch_content c = Some (utf8_decode (take (Z.to_nat (Qfloor cap)) data)) /\
   length (take (Z.to_nat (Qfloor cap)) data) = Z.to_nat (Qfloor cap) /\
   ch_truncated c = Some true /\ ch_binary c = None) /\
  (exists bytes,
      (ch_content c = None \/ ch_content c = Some (utf8_decode bytes)) /\
      (inject_Z (Z.of_nat (length bytes)) <= cap)%Q).
Proof.
  intros Hpos Hin Hread.
  assert (Hc : c = record_content cap data
                     (mkChange (ch_path c) (ch_status c) None None None)).
  { unfold getGitChanges in Hin. destruct (negb _).
    - apply elem_of_nil in Hin. contradiction.
    - apply getGitChanges_loop_elem in Hin. rewrite Hread in Hin. exact Hin. }
  assert (Hbin : isProbablyBinary data = true ->
                 ch_content c = None /\ ch_truncated c = None /\ ch_binary c = Some true).
  { intros Hb. rewrite Hc. unfold record_content. rewrite Hb. auto. }
  assert (Hsmall : isProbablyBinary data = false ->
                   (inject_Z (Z.of_nat (length data)) <= cap)%Q ->
                   ch_content c = Some (utf8_decode data) /\
                   ch_truncated c = None /\ ch_binary c = None).
  { intros Hb Hle. rewrite Hc. unfold record_content. rewrite Hb.
    apply Qgtb_false in Hle. rewrite Hle. auto. }
  assert (Hlarge : isProbablyBinary data = false ->
                   (cap < inject_Z (Z.of_nat (length data)))%Q ->
                   ch_content c = Some (utf8_decode (take (Z.to_nat (Qfloor cap)) data)) /\
                   length (take (Z.to_nat (Qfloor cap)) data) = Z.to_nat (Qfloor cap) /\
                   ch_truncated c = Some true /\ ch_binary c = None).
  { intros Hb Hlt. destruct (subarray_to_floor cap data Hpos Hlt) as (Hsub & Hlen & _).
    rewrite Hc. unfold record_content. rewrite Hb.
    pose proof Hlt as Hgt. apply Qgtb_true in Hgt. rewrite Hgt.
    cbn [ch_content ch_truncated ch_binary]. rewrite Hsub. auto. }
  split; [exact Hbin|]. split.
  { intros Hnull. apply Hbin. apply isProbablyBinary_null. exact Hnull. }
  split; [exact Hsmall|]. split; [exact Hlarge|].
  destruct (isProbablyBinary data) eqn:Hb.
  - exists []. split; [left; apply Hbin; reflexivity|].
    apply Qlt_le_weak. exact Hpos.
  - destruct (Qlt_le_dec cap (inject_Z (Z.of_nat (length data)))) as [Hlt|Hle].
    + exists (take (Z.to_nat (Qfloor cap)) data).
      split; [right; apply Hlarge; auto|].
      destruct (subarray_to_floor cap data Hpos Hlt) as (_ & Hlen & Hbound).
      rewrite Hlen. exact Hbound.
    + exists data. split; [right; apply Hsmall; auto | exact Hle].
Qed.

End Collector.

(** ** Further properties: strings and flags *)

Section Strings.

(** [startsWith] holds exactly for the strings that begin with the
    prefix. *)
Lemma startsWith_spec (s p : jsstring) :
  startsWith s p = true <-> exists t, s = p ++ t.
Proof.
  revert s. induction p as [|c p IH]; intros s; cbn [startsWith].
  - split; [intros _; exists s; reflexivity | reflexivity].
  - destruct s as [|d s]; [split; [discriminate | intros [t H]; discriminate]|].
    rewrite andb_true_iff, N.eqb_eq, IH. split.
    + intros [-> [t ->]]. exists t. reflexivity.
    + intros [t H]. injection H as -> ->. split; [reflexivity | exists t; reflexivity].
Qed.

Lemma startsWith_refl_app (p t : jsstring) : startsWith (p ++ t) p = true.
Proof. apply startsWith_spec. exists t. reflexivity. Qed.

(** Without a dollar sign the replacement text stands for itself. *)
Lemma GetSubstitution_plain (matched before after template : jsstring) :
  Forall (fun c => c <> 36%N) template ->
  GetSubstitution matched before after template = template.
Proof.
  induction 1 as [|c rest Hc Hrest IH]; [reflexivity|].
  cbn [GetSubstitution]. destruct rest as [|d rest']; [reflexivity|].
  apply N.eqb_neq in Hc. rewrite Hc. cbn [andb]. f_equal. exact IH.
Qed.

(** Passing the rest of a matched occurrence. *)
Lemma replaceAll_scan_skip (pat rep before skipped rest : jsstring) :
  replaceAll_scan pat rep before (skipped ++ rest) (length skipped) =
  replaceAll_scan pat rep (before ++ skipped) rest 0.
Proof.
  revert before. induction skipped as [|c skipped IH]; intros before.
  - cbn. rewrite app_nil_r. destruct rest; reflexivity.
  - cbn [app length replaceAll_scan]. rewrite IH, <- app_assoc. reflexivity.
Qed.

(** The text in front of the first brace is copied. *)
Lemma replaceAll_scan_front (pat rep before a rest : jsstring) (b0 : N) :
  head pat = Some b0 ->
  Forall (fun c => c <> b0) a ->
  replaceAll_scan pat rep before (a ++ rest) 0 =
  a ++ replaceAll_scan pat rep (before ++ a) rest 0.
Proof.
  intros Hpat Ha. revert before.
  induction Ha as [|c a Hc _ IH]; intros before.
  - cbn. rewrite app_nil_r. reflexivity.
  - cbn [app replaceAll_scan].
    assert (Hstart : startsWith (c :: a ++ rest) pat = false).
    { destruct pat as [|p0 pat']; [discriminate|]. injection Hpat as ->.
      cbn [startsWith]. apply N.eqb_neq in Hc. rewrite Hc. reflexivity. }
    rewrite Hstart. f_equal. rewrite IH, <- app_assoc. reflexivity.
Qed.


Lemma includes_app_start (a s sub : jsstring) :
  startsWith s sub = true -> includes (a ++ s) sub = true.
Proof.
  intros Hs. induction a as [|c a IH]; cbn [app].
  - destruct s; cbn [includes]; rewrite Hs; reflexivity.
  - cbn [includes]. rewrite IH. apply orb_true_r.
Qed.

(** X1. A template entry that holds the placeholder once, with no other
    opening brace around it, becomes that entry with the prompt in the
    placeholder's place, provided the prompt has no dollar sign (a
    dollar sign in the prompt is read as a replacement pattern). *)
Theorem placeholder_substitution (a b prompt : jsstring) :
  Forall (fun c => c <> 123%N) a ->
  Forall (fun c => c <> 123%N) b ->
  Forall (fun c => c <> 36%N) prompt ->
  interpolateArgs [a ++ lit "{prompt}" ++ b] prompt =
    {| int_args := [a ++ prompt ++ b]; int_usedPrompt := true |}.
Proof.
  intros Ha Hb Hp. cbn [interpolateArgs].
  rewrite (includes_app_start a (lit "{prompt}" ++ b) (lit "{prompt}"))
    by apply startsWith_refl_app.
  cbn [int_args int_usedPrompt]. f_equal. f_equal.
  unfold replaceAll.
  rewrite (replaceAll_scan_front (lit "{prompt}") prompt [] a _ 123%N eq_refl Ha).
  f_equal. cbn [app].
  change (lit "{prompt}" ++ b) with (123%N :: lit "prompt}" ++ b).
  cbn [replaceAll_scan].
  change (123%N :: lit "prompt}" ++ b) with (lit "{prompt}" ++ b).
  rewrite startsWith_refl_app.
  rewrite GetSubstitution_plain by exact Hp. f_equal.
  change (length (lit "{prompt}") - 1) with (length (lit "prompt}")).
  rewrite replaceAll_scan_skip.
  rewrite <- (app_nil_r b) at 1.
  rewrite (replaceAll_scan_front (lit "{prompt}") prompt _ b [] 123%N eq_refl Hb).
  cbn. apply app_nil_r.
Qed.

(** X2. The interpolated list has one entry per template entry, in
    order: an entry with the placeholder is replaced, any other entry is
    kept as it is; the flag is set exactly when some entry holds the
    placeholder. *)
Theorem interpolateArgs_map (args : list jsstring) (prompt : jsstring) :
  int_args (interpolateArgs args prompt) =
    map (fun arg => if includes arg (lit "{prompt}")
                    then replaceAll arg (lit "{prompt}") prompt
                    else arg) args /\
  int_usedPrompt (interpolateArgs args prompt) =
    existsb (fun arg => includes arg (lit "{prompt}")) args.
Proof.
  induction args as [|arg rest [IHa IHu]]; [split; reflexivity|].
  cbn [interpolateArgs map existsb].
  destruct (includes arg (lit "{prompt}")); cbn [int_args int_usedPrompt orb];
    rewrite IHa; split; auto.
Qed.

(** X3. [hasFlag] finds the flag exactly when some argument is the flag
    itself or the flag followed by an equals sign and any text. *)
Theorem hasFlag_spec (args : list jsstring) (flag : jsstring) :
  hasFlag args flag = true <->
  exists arg, In arg args /\ (arg = flag \/ exists v, arg = flag ++ lit "=" ++ v).
Proof.
  unfold hasFlag. rewrite existsb_exists. split.
  - intros (arg & Hin & Hm). exists arg. split; [exact Hin|].
    unfold matches_flag, str_eqb in Hm. apply orb_true_iff in Hm as [Heq|Hpre].
    + left. apply bool_decide_eq_true_1 in Heq. exact Heq.
    + right. apply startsWith_spec in Hpre as [v ->]. exists v.
      rewrite <- app_assoc. reflexivity.
  - intros (arg & Hin & [->|[v ->]]).
    + exists flag. split; [exact Hin|]. unfold matches_flag, str_eqb.
      rewrite bool_decide_eq_true_2 by reflexivity. reflexivity.
    + exists (flag ++ lit "=" ++ v). split; [exact Hin|]. unfold matches_flag.
      rewrite app_assoc, startsWith_refl_app. apply orb_true_r.
Qed.

End Strings.

(** ** Further properties: the process runner *)

Section RunnerMore.

Lemma matches_flag_refl (flag : jsstring) : matches_flag flag flag = true.
Proof.
  unfold matches_flag, str_eqb. rewrite bool_decide_eq_true_2 by reflexivity.
  reflexivity.
Qed.

Lemma hasFlag_app (l1 l2 : list jsstring) (flag : jsstring) :
  hasFlag (l1 ++ l2) flag = hasFlag l1 flag || hasFlag l2 flag.
Proof. unfold hasFlag. apply existsb_app. Qed.

Lemma or_default_nonempty (a : option jsstring) (d : jsstring) :
  d <> [] -> or_default a d <> [].
Proof. intros Hd. destruct a as [[|c s]|]; cbn; auto; discriminate. Qed.

(** X4. The model flag is never the empty string, and a supplied
    non-empty model identifier always leaves the child with the model
    flag among its arguments, appended by the program or already
    there. *)
Theorem model_flag_present (env : Env) (p : RunParams) (c : N) (m : jsstring) :
  rp_modelId p = Some (c :: m) ->
  getModelFlag env (cfg_name (rp_config p)) <> [] /\
  hasFlag (l_args (runAgent_launch env p)) (getModelFlag env (cfg_name (rp_config p))) = true.
Proof.
  intros Hm. split.
  - unfold getModelFlag. apply or_default_nonempty, or_default_nonempty. discriminate.
  - rewrite finalArgs_shape, app_assoc, hasFlag_app, hasFlag_app.
    unfold model_pair. rewrite Hm.
    destruct (hasFlag (assembled p) _) eqn:Hhas; [reflexivity|].
    cbn [hasFlag existsb]. rewrite matches_flag_refl. reflexivity.
Qed.

(** X5. The prompt is written to the child's standard input exactly
    when it is non-empty and the mode is "stdin"; the child's input is a
    pipe exactly then, and its output and error streams are pipes
    exactly when that happens or the format is JSON. *)
Theorem stream_wiring (env : Env) (p : RunParams) :
  let sends :=
    negb (bool_decide (rp_prompt p = [])) && bool_decide (rp_inputMode p = InStdin) in
  l_stdin (runAgent_launch env p) = (if sends then Some (rp_prompt p) else None) /\
  l_stdio (runAgent_launch env p) =
    (if sends then (Pipe, Pipe, Pipe)
     else if bool_decide (rp_format p = FmtJson) then (Inherit, Pipe, Pipe)
     else (Inherit, Inherit, Inherit)).
Proof.
  unfold runAgent_launch, delivery. cbv zeta. cbn [l_stdin l_stdio].
  destruct (rp_prompt p) as [|c s]; cbn [bool_decide];
    [|rewrite (bool_decide_eq_false_2 (c :: s = [])) by discriminate];
    rewrite ?(bool_decide_eq_true_2 ([] = [])) by reflexivity; cbn [negb andb].
  - cbn [stdinMode sendPrompt].
    rewrite (bool_decide_eq_false_2 (Inherit = Pipe)) by discriminate.
    rewrite orb_false_r. destruct (bool_decide (rp_format p = FmtJson)); auto.
  - destruct (rp_inputMode p); try destruct (negb _);
      cbn [stdinMode sendPrompt];
      rewrite ?(bool_decide_eq_false_2 (Inherit = Pipe)) by discriminate;
      rewrite ?(bool_decide_eq_true_2 (Pipe = Pipe)) by reflexivity;
      rewrite ?(bool_decide_eq_false_2 (InAuto = InStdin)) by discriminate;
      rewrite ?(bool_decide_eq_false_2 (InArg = InStdin)) by discriminate;
      rewrite ?(bool_decide_eq_false_2 (InNone = InStdin)) by discriminate;
      rewrite ?(bool_decide_eq_true_2 (InStdin = InStdin)) by reflexivity;
      rewrite ?orb_false_r, ?orb_true_r;
      try destruct (bool_decide (rp_format p = FmtJson)); auto.
Qed.

Lemma interpolateArgs_unused (args : list jsstring) (prompt : jsstring) :
  int_usedPrompt (interpolateArgs args prompt) = false ->
  Forall (fun arg => includes arg (lit "{prompt}") = false) args.
Proof.
  induction args as [|arg rest IH]; cbn [interpolateArgs]; intros Hu.
  - constructor.
  - destruct (includes arg (lit "{prompt}")) eqn:Hi; cbn [int_usedPrompt] in Hu;
      [discriminate|]. constructor; auto.
Qed.

(** X6. The prompt is appended as a last argument only when it is
    non-empty, the mode is "arg" or "auto", and no template entry holds
    the placeholder; nothing is then written to standard input. *)
Theorem appended_prompt (env : Env) (p : RunParams) :
  l_args (runAgent_launch env p) <> baseArgs env p ->
  l_args (runAgent_launch env p) = baseArgs env p ++ [rp_prompt p] /\
  rp_prompt p <> [] /\
  (rp_inputMode p = InArg \/ rp_inputMode p = InAuto) /\
  Forall (fun arg => includes arg (lit "{prompt}") = false) (cfg_args (rp_config p)) /\
  l_stdin (runAgent_launch env p) = None.
Proof.
  unfold runAgent_launch, delivery. cbv zeta. cbn [l_args l_stdin].
  pose proof (interpolateArgs_unused (cfg_args (rp_config p)) (rp_prompt p)) as Hunused.
  destruct (rp_prompt p) as [|c s] eqn:Hp; [cbn; congruence|].
  destruct (rp_inputMode p); try (cbn [finalArgs]; congruence).
  - destruct (int_usedPrompt _); cbn [negb finalArgs sendPrompt]; [congruence|].
    intros _. repeat split; auto; discriminate.
  - destruct (int_usedPrompt _); cbn [negb finalArgs sendPrompt]; [congruence|].
    intros _. repeat split; auto; discriminate.
Qed.

End RunnerMore.

(** ** Further properties: the binary classifier *)

Section ClassifierMore.

(** X7. Only the first 8000 bytes count: whatever follows them, a null
    byte included, does not change the answer. *)
Theorem isProbablyBinary_prefix (buffer extra : list byte) :
  Z.to_nat 8000 <= length buffer ->
  isProbablyBinary (buffer ++ extra) = isProbablyBinary buffer.
Proof.
  intros Hlen. unfold isProbablyBinary. cbv zeta.
  rewrite take_app_le by exact Hlen. reflexivity.
Qed.

Lemma printable_not_null (sample : list byte) :
  Forall (fun b => isPrintable (Byte.to_N b) = true) sample ->
  existsb is_null sample = false /\ List.filter is_nonPrintable sample = [].
Proof.
  induction 1 as [|b rest Hb _ [IHn IHf]]; [split; reflexivity|].
  cbn [existsb List.filter]. unfold is_nonPrintable at 1. rewrite Hb. cbn [negb].
  split; [|exact IHf]. rewrite IHn, orb_false_r.
  unfold is_null. destruct (N.eqb_spec (Byte.to_N b) 0) as [Hz|]; [|reflexivity].
  rewrite Hz in Hb. discriminate Hb.
Qed.

(** X8. A buffer whose sampled bytes are all tab, line feed, carriage
    return or in 32..126 is never classified as binary. *)
Theorem printable_text_not_binary (buffer : list byte) :
  Forall (fun b => isPrintable (Byte.to_N b) = true) (take (Z.to_nat 8000) buffer) ->
  isProbablyBinary buffer = false.
Proof.
  intros Hall. unfold isProbablyBinary. cbv zeta.
  destruct (printable_not_null _ Hall) as [Hnull Hcount].
  rewrite isProbablyBinary_loop_spec, Hnull, Hcount. cbn [length Nat.add].
  destruct (Nat.ltb_spec 0 (length (take (Z.to_nat 8000) buffer))) as [Hpos|_];
    [|reflexivity].
  rewrite ratio_exceeds_spec by exact Hpos.
  apply Nat.ltb_ge. lia.
Qed.

Lemma high_bytes_count (sample : list byte) :
  Forall (fun b => (127 <= Byte.to_N b)%N) sample ->
  existsb is_null sample = false /\
  length (List.filter is_nonPrintable sample) = length sample.
Proof.
  induction 1 as [|b rest Hb _ [IHn IHf]]; [split; reflexivity|].
  cbn [existsb List.filter].
  assert (Hnp : is_nonPrintable b = true).
  { unfold is_nonPrintable, isPrintable.
    repeat match goal with
           | |- context [N.eqb ?x ?y] => destruct (N.eqb_spec x y); [lia|]
           end.
    destruct (N.leb_spec (Byte.to_N b) 126); [lia|].
    rewrite andb_false_r. reflexivity. }
  assert (Hnn : is_null b = false) by (unfold is_null; apply N.eqb_neq; lia).
  rewrite Hnp, Hnn. cbn [orb length]. split; [exact IHn | f_equal; exact IHf].
Qed.

(** X9. A non-empty buffer whose sampled bytes are all 127 or above,
    as in text written only with non-ASCII characters, is classified as
    binary. *)
Theorem high_bytes_binary (buffer : list byte) :
  buffer <> [] ->
  Forall (fun b => (127 <= Byte.to_N b)%N) (take (Z.to_nat 8000) buffer) ->
  isProbablyBinary buffer = true.
Proof.
  intros Hne Hall. unfold isProbablyBinary. cbv zeta.
  destruct (high_bytes_count _ Hall) as [Hnull Hcount].
  rewrite isProbablyBinary_loop_spec, Hnull, Hcount. cbn [Nat.add].
  assert (Hpos : 0 < length (take (Z.to_nat 8000) buffer)).
  { destruct buffer as [|b rest]; [congruence|].
    rewrite length_take. cbn [length]. lia. }
  rewrite (proj2 (Nat.ltb_lt _ _) Hpos). cbn [andb].
  rewrite ratio_exceeds_spec by exact Hpos. apply Nat.ltb_lt. lia.
Qed.

End ClassifierMore.

(** ** Further properties: configuration and parsing *)

Section ParserMore.

Context {rt : Runtime}.

Ltac turn_in H :=
  rewrite parseArgs_loop_cons in H; cbv beta iota zeta in H; cbn [hd_error] in H.

(** X10. Without an agent option on the command line the agent comes
    from the environment: from [AGENT_EXEC_AGENT] when that variable is
    set, whatever its value, and from [AGENT_RUN_AGENT] only when it is
    not set. *)
Theorem agent_from_environment (env : Env) (cwd : jsstring)
    (argv : list jsstring) (r : Parsed) :
  Forall (fun a => classify a <> TAgent) argv ->
  parseArgs env cwd argv = inr r ->
  opt_agent (p_options r) =
    normalizeAgent
      match env !! lit "AGENT_EXEC_AGENT" with
      | Some v => Some v
      | None => env !! lit "AGENT_RUN_AGENT"
      end.
Proof.
  intros Hall Hrun. unfold parseArgs in Hrun.
  destruct (parseArgs_loop argv _) as [e|st] eqn:Hloop; [discriminate|].
  injection Hrun as <-. cbn [p_options].
  rewrite (parseArgs_loop_agent _ _ _ Hall Hloop).
  cbn [st_options initial_options opt_agent]. unfold getEnvValue, nullish.
  change (lit "AGENT_EXEC_" ++ lit "AGENT") with (lit "AGENT_EXEC_AGENT").
  change (lit "AGENT_RUN_" ++ lit "AGENT") with (lit "AGENT_RUN_AGENT").
  destruct (env !! lit "AGENT_EXEC_AGENT"); reflexivity.
Qed.

Lemma normalizeMaxBytes_positive (value : option jsstring) :
  (0 < normalizeMaxBytes value)%Q.
Proof.
  unfold normalizeMaxBytes. destruct (Number value) as [| | |q]; try reflexivity.
  destruct (Qgtb q 0) eqn:Hq; [|reflexivity]. apply Qgtb_true. exact Hq.
Qed.

Lemma parseArgs_loop_maxBytes_positive (rest : list jsstring) (st st' : ParseState) :
  (0 < opt_maxBytes (st_options st))%Q ->
  parseArgs_loop rest st = inr st' ->
  (0 < opt_maxBytes (st_options st'))%Q.
Proof.
  revert st.
  induction rest as [|a|a b l IH2 IH1] using list_pair_ind; intros st Hpos Hrun.
  - injection Hrun as <-. exact Hpos.
  - turn_in Hrun.
    destruct (st_inPassthrough st); [injection Hrun as <-; exact Hpos|].
    destruct (classify a); try discriminate; injection Hrun as <-;
      try exact Hpos. apply normalizeMaxBytes_positive.
  - turn_in Hrun.
    destruct (st_inPassthrough st); [refine (IH1 _ _ Hrun); exact Hpos|].
    destruct (classify a);
      try (refine (IH1 _ _ Hrun); exact Hpos);
      try (refine (IH2 _ _ Hrun); exact Hpos).
    + destruct (normalizeAgent (Some b)); [|discriminate].
      refine (IH2 _ _ Hrun); exact Hpos.
    + destruct b; [discriminate|]. refine (IH2 _ _ Hrun); exact Hpos.
    + refine (IH2 _ _ Hrun). apply normalizeMaxBytes_positive.
Qed.

(** X11. The byte cap of a parsed configuration is always a positive
    number, whatever the environment and the command line hold. *)
Theorem parseArgs_maxBytes_positive (env : Env) (cwd : jsstring)
    (argv : list jsstring) (r : Parsed) :
  parseArgs env cwd argv = inr r ->
  (0 < opt_maxBytes (p_options r))%Q.
Proof.
  unfold parseArgs. intros Hrun.
  destruct (parseArgs_loop argv _) as [e|st] eqn:Hloop; [discriminate|].
  injection Hrun as <-. cbn [p_options].
  refine (parseArgs_loop_maxBytes_positive _ _ _ _ Hloop).
  apply normalizeMaxBytes_positive.
Qed.

Lemma classify_delimiter (arg : jsstring) :
  classify arg = TDelimiter -> arg = lit "--".
Proof.
  unfold classify, str_eqb. case_bool_decide as Hd; [auto|].
  repeat (match goal with
          | |- context [if ?c then _ else _] => destruct c
          end; try discriminate).
Qed.

Lemma parseArgs_loop_no_delimiter (rest : list jsstring) (st st' : ParseState) :
  Forall (fun a => a <> lit "--") rest ->
  st_inPassthrough st = false ->
  parseArgs_loop rest st = inr st' ->
  st_passthrough st' = st_passthrough st.
Proof.
  revert st.
  induction rest as [|a|a b l IH2 IH1] using list_pair_ind; intros st Hall Hin Hrun.
  - injection Hrun as <-. reflexivity.
  - turn_in Hrun. rewrite Hin in Hrun. apply Forall_cons in Hall as [Ha _].
    destruct (classify a) eqn:Hk; try discriminate;
      injection Hrun as <-; reflexivity.
  - turn_in Hrun. rewrite Hin in Hrun. apply Forall_cons in Hall as [Ha Hbl].
    pose proof Hbl as Hl. apply Forall_cons in Hl as [_ Hl].
    destruct (classify a) eqn:Hk;
      try (refine (IH1 _ Hbl _ Hrun); exact Hin);
      try (refine (IH2 _ Hl _ Hrun); exact Hin).
    + apply classify_delimiter in Hk. contradiction.
    + destruct (normalizeAgent (Some b)); [|discriminate].
      refine (IH2 _ Hl _ Hrun); exact Hin.
    + destruct b; [discriminate|]. refine (IH2 _ Hl _ Hrun); exact Hin.
Qed.

(** X12. Nothing is forwarded to the agent unless the command line
    holds the delimiter token. *)
Theorem no_delimiter_no_passthrough (env : Env) (cwd : jsstring)
    (argv : list jsstring) (r : Parsed) :
  Forall (fun a => a <> lit "--") argv ->
  parseArgs env cwd argv = inr r ->
  p_passthrough r = [].
Proof.
  unfold parseArgs. intros Hall Hrun.
  destruct (parseArgs_loop argv _) as [e|st] eqn:Hloop; [discriminate|].
  injection Hrun as <-. cbn [p_passthrough].
  exact (parseArgs_loop_no_delimiter _
           (mkParseState (initial_options env cwd) [] [] false) _ Hall eq_refl Hloop).
Qed.

End ParserMore.

(** ** Further properties: trimming and splitting *)

Section Text.

Context {rt : Runtime}.

Lemma trimStart_head (s : jsstring) (c : N) :
  head (trimStart s) = Some c -> is_white c = false.
Proof.
  induction s as [|d s IH]; cbn [trimStart]; [discriminate|].
  destruct (is_white d) eqn:Hd; [exact IH|].
  cbn. intros H. injection H as <-. exact Hd.
Qed.

Lemma trimStart_snoc (l : jsstring) (c : N) :
  is_white c = false -> trimStart (l ++ [c]) = trimStart l ++ [c].
Proof.
  intros Hc. induction l as [|d l IH]; cbn [app trimStart].
  - rewrite Hc. reflexivity.
  - destruct (is_white d); [exact IH | reflexivity].
Qed.

Lemma trimStart_clean_head (c : N) (s : jsstring) :
  is_white c = false -> trimStart (c :: s) = c :: s.
Proof. intros Hc. cbn [trimStart]. rewrite Hc. reflexivity. Qed.

(** A trimmed string neither starts nor ends with whitespace. *)
Lemma trim_ends (s : jsstring) (c : N) :
  head (trim s) = Some c \/ last (trim s) = Some c -> is_white c = false.
Proof.
  unfold trim, trimEnd.
  destruct (trimStart s) as [|c0 t] eqn:Ht; [cbn; intros [H|H]; discriminate|].
  assert (Hc0 : is_white c0 = false) by (apply (trimStart_head s); rewrite Ht; reflexivity).
  cbn [rev]. rewrite trimStart_snoc by exact Hc0.
  rewrite rev_app_distr. cbn [rev app].
  intros [H|H].
  - injection H as <-. exact Hc0.
  - destruct (trimStart (rev t)) as [|d u] eqn:Hu.
    + cbn in H. injection H as <-. exact Hc0.
    + cbn [rev] in H. rewrite app_comm_cons, last_snoc in H. injection H as <-.
      apply (trimStart_head (rev t)). rewrite Hu. reflexivity.
Qed.

Lemma trim_spaceless (s : jsstring) : spaceless s -> trim s = s.
Proof.
  intros Hs. unfold trim, trimEnd.
  assert (Hstart : forall t, spaceless t -> trimStart t = t).
  { intros t Ht. destruct Ht as [|c t Hc _]; [reflexivity|].
    apply trimStart_clean_head. exact Hc. }
  rewrite (Hstart s Hs). rewrite Hstart; [apply rev_involutive|].
  unfold spaceless. apply Forall_rev. exact Hs.
Qed.

(** A string with clean ends is left alone by [trim]. *)
Lemma trim_clean_ends (a m b : jsstring) :
  a <> [] -> spaceless a -> b <> [] -> spaceless b ->
  trim (a ++ m ++ b) = a ++ m ++ b.
Proof.
  intros Ha Hsa Hb Hsb. unfold trim, trimEnd.
  assert (Hstart : trimStart (a ++ m ++ b) = a ++ m ++ b).
  { destruct Hsa as [|a0 a Ha0 _]; [congruence|].
    cbn [app]. apply trimStart_clean_head. exact Ha0. }
  assert (Hrev : exists d u, rev b = d :: u /\ is_white d = false).
  { assert (Hsr : spaceless (rev b)) by (apply Forall_rev; exact Hsb).
    destruct (rev b) as [|d u] eqn:Hr.
    - apply (f_equal (@rev _)) in Hr. rewrite rev_involutive in Hr. contradiction.
    - exists d, u. split; [reflexivity|]. apply Forall_cons in Hsr as [Hd _]. exact Hd. }
  destruct Hrev as (d & u & Hr & Hd).
  rewrite Hstart, app_assoc, rev_app_distr, Hr. cbn [app].
  rewrite trimStart_clean_head by exact Hd.
  rewrite app_comm_cons, <- Hr, <- rev_app_distr. apply rev_involutive.
Qed.

(** X13. The prompt of a parsed command line neither starts nor ends
    with whitespace, and it is empty when the command line has no
    positional token. *)
Theorem prompt_trimmed (env : Env) (cwd : jsstring) (argv : list jsstring) (r : Parsed) :
  parseArgs env cwd argv = inr r ->
  (forall c, head (p_prompt r) = Some c \/ last (p_prompt r) = Some c ->
             is_white c = false) /\
  (positional_tokens argv = [] -> p_prompt r = []).
Proof.
  unfold parseArgs. intros Hrun.
  destruct (parseArgs_loop argv _) as [e|st] eqn:Hloop; [discriminate|].
  injection Hrun as <-. cbn [p_prompt]. split.
  - intros c. apply trim_ends.
  - intros Hnone. apply parseArgs_loop_positional in Hloop; [|reflexivity].
    rewrite Hloop, Hnone. reflexivity.
Qed.

(** The text in front of the first separator goes to the current
    piece. *)
Lemma split_scan_front (sep cur a rest : jsstring) (s0 : N) :
  head sep = Some s0 ->
  Forall (fun c => c <> s0) a ->
  split_scan sep cur (a ++ rest) 0 = split_scan sep (cur ++ a) rest 0.
Proof.
  intros Hsep Ha. revert cur.
  induction Ha as [|c a Hc _ IH]; intros cur.
  - cbn. rewrite app_nil_r. reflexivity.
  - cbn [app split_scan].
    assert (Hstart : startsWith (c :: a ++ rest) sep = false).
    { destruct sep as [|p0 sep']; [discriminate|]. injection Hsep as ->.
      cbn [startsWith]. apply N.eqb_neq in Hc. rewrite Hc. reflexivity. }
    rewrite Hstart, IH, <- app_assoc. reflexivity.
Qed.

Lemma split_scan_skip (sep cur skipped rest : jsstring) :
  split_scan sep cur (skipped ++ rest) (length skipped) = split_scan sep cur rest 0.
Proof.
  induction skipped as [|c skipped IH]; [destruct rest; reflexivity|].
  cbn [app length split_scan]. exact IH.
Qed.

(** At a separator the current piece ends. *)
Lemma split_scan_sep (sep cur rest : jsstring) :
  sep <> [] ->
  split_scan sep cur (sep ++ rest) 0 = cur :: split_scan sep [] rest 0.
Proof.
  intros Hsep. destruct sep as [|s0 sep']; [congruence|].
  cbn [app split_scan].
  change (s0 :: sep' ++ rest) with ((s0 :: sep') ++ rest).
  rewrite startsWith_refl_app. f_equal.
  change (length (s0 :: sep') - 1) with (length sep' - 0).
  rewrite Nat.sub_0_r. apply split_scan_skip.
Qed.

Lemma spaceless_no_space (s : jsstring) :
  spaceless s -> Forall (fun c => c <> 32%N) s.
Proof.
  unfold spaceless. intros Hs. eapply Forall_impl; [exact Hs|].
  intros c Hc ->. discriminate Hc.
Qed.

Lemma split_join_words (words : list jsstring) :
  words <> [] ->
  Forall spaceless words ->
  split (join (lit " ") words) (lit " ") = words.
Proof.
  intros Hne Hall. unfold split.
  induction Hall as [|w rest Hw Hrest IH]; [congruence|].
  cbn [join]. destruct rest as [|w2 rest'].
  - rewrite <- (app_nil_r w) at 1.
    rewrite (split_scan_front (lit " ") [] w [] 32%N eq_refl (spaceless_no_space _ Hw)).
    reflexivity.
  - rewrite (split_scan_front (lit " ") [] w _ 32%N eq_refl (spaceless_no_space _ Hw)).
    rewrite split_scan_sep by discriminate. cbn [app]. f_equal.
    apply IH. discriminate.
Qed.

(** X14. An argument template written as non-empty words without
    whitespace, separated by single spaces, is split back into exactly
    those words. *)
Theorem splitArgs_join (words : list jsstring) :
  Forall (fun w => w <> [] /\ spaceless w) words ->
  splitArgs (Some (join (lit " ") words)) = words.
Proof.
  intros Hall.
  assert (Hsp : Forall spaceless words) by (eapply Forall_impl; [exact Hall | intros x [? ?]; assumption]).
  assert (Hne : Forall (fun w => w <> []) words) by (eapply Forall_impl; [exact Hall | intros x [? ?]; assumption]).
  destruct words as [|w rest]; [reflexivity|].
  assert (Hjoin : exists c v, join (lit " ") (w :: rest) = c :: v).
  { apply Forall_cons in Hne as [Hw _]. destruct w as [|c w']; [congruence|].
    cbn [join]. destruct rest; [exists c, w' | eexists c, _]; reflexivity. }
  destruct Hjoin as (c & v & Hj). unfold splitArgs.
  rewrite Hj, <- Hj. rewrite split_join_words by (auto; discriminate).
  assert (Hmap : map trim (w :: rest) = w :: rest).
  { clear Hj Hall Hne. induction Hsp as [|x l Hx _ IHl]; [reflexivity|].
    cbn [map]. rewrite trim_spaceless by exact Hx. f_equal. exact IHl. }
  rewrite Hmap. unfold filter_Boolean.
  clear Hj Hmap Hall Hsp. induction Hne as [|x l Hx _ IHl]; [reflexivity|].
  rewrite filter_cons_True by exact Hx. f_equal. exact IHl.
Qed.

End Text.

(** ** Further properties: the change collector *)

Section CollectorMore.

Context {rt : Runtime}.

Lemma includes_absent_head (s sub : jsstring) (s0 : N) :
  head sub = Some s0 ->
  Forall (fun c => c <> s0) s ->
  includes s sub = false.
Proof.
  intros Hsub Hs. destruct sub as [|p0 sub']; [discriminate|]. injection Hsub as ->.
  induction Hs as [|c s Hc _ IH]; [reflexivity|].
  cbn [includes startsWith]. apply N.eqb_neq in Hc. rewrite Hc, IH. reflexivity.
Qed.

(** X15. A status line made of a two-character code, one more
    character and a path without whitespace yields that path with the
    trimmed code; when the rest is an old path, the arrow and a new
    path, both without whitespace, it yields the new path only. *)
Theorem parse_line_paths (xy old new : jsstring) (c : N) :
  length xy = 2 ->
  old <> [] -> spaceless old ->
  new <> [] -> spaceless new ->
  parse_line (xy ++ c :: new) = Some (trim xy, new) /\
  parse_line (xy ++ c :: old ++ lit " -> " ++ new) = Some (trim xy, new).
Proof.
  intros Hxy Hold Hsold Hnew Hsnew.
  assert (Htake : forall rest, slice_to 2 (xy ++ c :: rest) = xy).
  { intros rest. unfold slice_to. rewrite <- Hxy. apply take_app_length. }
  assert (Hdrop : forall rest, slice_from 3 (xy ++ c :: rest) = rest).
  { intros rest. unfold slice_from.
    change (xy ++ c :: rest) with (xy ++ [c] ++ rest). rewrite app_assoc.
    apply drop_app_length'. rewrite length_app, Hxy. reflexivity. }
  split; unfold parse_line; cbv zeta; rewrite Htake, Hdrop.
  - rewrite trim_spaceless by exact Hsnew.
    rewrite (includes_absent_head new (lit " -> ") 32%N eq_refl
               (spaceless_no_space _ Hsnew)).
    destruct new; [congruence | reflexivity].
  - rewrite trim_clean_ends by assumption.
    rewrite (includes_app_start old (lit " -> " ++ new) (lit " -> "))
      by apply startsWith_refl_app.
    unfold split.
    rewrite (split_scan_front (lit " -> ") [] old _ 32%N eq_refl
               (spaceless_no_space _ Hsold)).
    rewrite split_scan_sep by discriminate.
    assert (Hlast : split_scan (lit " -> ") [] new 0 = [new]).
    { rewrite <- (app_nil_r new) at 1.
      rewrite (split_scan_front (lit " -> ") [] new [] 32%N eq_refl
                 (spaceless_no_space _ Hsnew)).
      reflexivity. }
    rewrite Hlast. cbn [app last or_default].
    destruct new as [|n0 new']; [congruence|]. reflexivity.
Qed.

Lemma trimStart_length (s : jsstring) : length (trimStart s) <= length s.
Proof.
  induction s as [|c s IH]; cbn [trimStart]; [lia|].
  destruct (is_white c); cbn [length]; lia.
Qed.

Lemma trim_length (s : jsstring) : length (trim s) <= length s.
Proof.
  unfold trim, trimEnd. rewrite length_rev.
  etransitivity; [apply trimStart_length|]. rewrite length_rev.
  apply trimStart_length.
Qed.

Lemma parse_line_some (line status file : jsstring) :
  parse_line line = Some (status, file) ->
  file <> [] /\ length status <= 2.
Proof.
  assert (Ht : length (trim (slice_to 2 line)) <= 2).
  { etransitivity; [apply trim_length|]. unfold slice_to. rewrite length_take. lia. }
  unfold parse_line. cbv zeta.
  set (st := trim (slice_to 2 line)) in *.
  destruct (if includes _ _ then _ else _) as [|f0 f] eqn:Hf; [discriminate|].
  intros H. injection H as <- <-. split; [discriminate | exact Ht].
Qed.

Lemma getGitChanges_loop_map (readFile : jsstring -> option (list byte))
    (cwd : jsstring) (cap : Q) (includeContent : bool) (lines : list jsstring) :
  getGitChanges_loop readFile cwd cap includeContent lines =
    map (fun sf => enriched readFile cwd cap includeContent (fst sf) (snd sf))
        (omap parse_line lines).
Proof.
  induction lines as [|line rest IH]; [reflexivity|].
  cbn [getGitChanges_loop omap list_omap]. cbv zeta.
  destruct (parse_line line) as [[status file]|]; [|exact IH].
  cbn [map fst snd]. rewrite IH. reflexivity.
Qed.


Lemma getGitChanges_map (git : jsstring * option Z)
    (readFile : jsstring -> option (list byte))
    (cwd : jsstring) (cap : Q) (includeContent : bool) :
  getGitChanges git readFile cwd cap includeContent =
    if bool_decide (snd git = Some 0%Z)
    then map (fun sf => enriched readFile cwd cap includeContent (fst sf) (snd sf))
             (omap parse_line (filter_Boolean (split_lines (fst git))))
    else [].
Proof.
  unfold getGitChanges. cbv zeta. destruct git as [stdout [z|]]; cbn [fst snd].
  - change (default 1%Z (Some z)) with z.
    destruct (Z.eqb_spec z 0) as [->|Hz]; cbn [negb].
    + rewrite bool_decide_eq_true_2 by reflexivity. apply getGitChanges_loop_map.
    + rewrite bool_decide_eq_false_2 by congruence. reflexivity.
  - reflexivity.
Qed.

Lemma enriched_key (readFile : jsstring -> option (list byte))
    (cwd : jsstring) (cap : Q) (includeContent : bool) (status file : jsstring) :
  ch_status (enriched readFile cwd cap includeContent status file) = status /\
  ch_path (enriched readFile cwd cap includeContent status file) = file.
Proof.
  unfold enriched. cbv zeta. destruct includeContent; [|split; reflexivity].
  destruct (readFile _) as [data|]; [|split; reflexivity].
  destruct (record_content_path cap data (mkChange file status None None None)) as [Hp Hs].
  split; assumption.
Qed.

(** X16. The statuses and paths of the collected records are those of
    the non-empty lines of the status output whose path is not empty,
    in the order of the lines: reading the files, whether it succeeds
    or not, never drops, adds or reorders a record. *)
Theorem changes_follow_lines (git : jsstring * option Z)
    (readFile : jsstring -> option (list byte))
    (cwd : jsstring) (cap : Q) (includeContent : bool) :
  map (fun c => (ch_status c, ch_path c))
      (getGitChanges git readFile cwd cap includeContent) =
    if bool_decide (snd git = Some 0%Z)
    then omap parse_line (filter_Boolean (split_lines (fst git)))
    else [].
Proof.
  rewrite getGitChanges_map. case_bool_decide; [|reflexivity].
  rewrite map_map. rewrite <- (map_id (omap parse_line _)) at 2.
  apply map_ext. intros [status file]. cbn [fst snd].
  destruct (enriched_key readFile cwd cap includeContent status file) as [-> ->].
  reflexivity.
Qed.

Lemma enriched_shape (readFile : jsstring -> option (list byte))
    (cwd : jsstring) (cap : Q) (includeContent : bool) (status file : jsstring) :
  let c := enriched readFile cwd cap includeContent status file in
  (ch_binary c = Some true /\ ch_content c = None /\ ch_truncated c = None) \/
  (ch_binary c = None /\ ch_truncated c = Some true /\ is_Some (ch_content c)) \/
  (ch_binary c = None /\ ch_truncated c = None).
Proof.
  unfold enriched. cbv zeta. destruct includeContent; [|auto].
  destruct (readFile _) as [data|]; [|auto].
  unfold record_content. destruct (isProbablyBinary data); [auto|].
  destruct (Qgtb _ _); cbn; eauto 6.
Qed.

(** X17. Every collected record has a non-empty path and a status of
    at most two characters, and one of three shapes: binary without
    content, truncated with content, or neither flag. *)
Theorem change_record_shape (git : jsstring * option Z)
    (readFile : jsstring -> option (list byte))
    (cwd : jsstring) (cap : Q) (includeContent : bool) (c : Change) :
  In c (getGitChanges git readFile cwd cap includeContent) ->
  ch_path c <> [] /\
  length (ch_status c) <= 2 /\
  ((ch_binary c = Some true /\ ch_content c = None /\ ch_truncated c = None) \/
   (ch_binary c = None /\ ch_truncated c = Some true /\ is_Some (ch_content c)) \/
   (ch_binary c = None /\ ch_truncated c = None)).
Proof.
  rewrite getGitChanges_map. case_bool_decide; [|intros []].
  intros Hin. apply in_map_iff in Hin as ([status file] & <- & Hin).
  cbn [fst snd].
  apply list_elem_of_In, list_elem_of_omap in Hin as (line & _ & Hline).
  destruct (parse_line_some line status file Hline) as [Hfile Hstatus].
  destruct (enriched_key readFile cwd cap includeContent status file) as [Hs Hp].
  rewrite Hs, Hp. split; [exact Hfile|]. split; [exact Hstatus|].
  apply enriched_shape.
Qed.

(** X18. A record carries no content and no flag when content
    inclusion is off, and when the file at its path cannot be read. *)
Theorem bare_record (git : jsstring * option Z)
    (readFile : jsstring -> option (list byte))
    (cwd : jsstring) (cap : Q) (includeContent : bool) (c : Change) :
  In c (getGitChanges git readFile cwd cap includeContent) ->
  includeContent = false \/ readFile (path_resolve [cwd; ch_path c]) = None ->
  ch_content c = None /\ ch_truncated c = None /\ ch_binary c = None.
Proof.
  rewrite getGitChanges_map. case_bool_decide; [|intros []].
  intros Hin. apply in_map_iff in Hin as ([status file] & <- & _).
  cbn [fst snd].
  destruct (enriched_key readFile cwd cap includeContent status file) as [_ Hp].
  rewrite Hp. unfold enriched. cbv zeta.
  intros [->|Hread]; [auto|]. rewrite Hread. destruct includeContent; auto.
Qed.

End CollectorMore.

(** ** Further properties: the entry point *)

Section MainMore.

Context {rt : Runtime}.

(** Each agent name has its configuration, with a non-empty command. *)
Lemma selectAgent_found (env : Env) (a : AgentName) :
  exists config,
    selectAgent (buildAgentConfigs env) (Some a) = Some config /\
    In config (buildAgentConfigs env) /\
    cfg_name config = a /\
    cfg_cmd config <> [].
Proof.
  unfold selectAgent, buildAgentConfigs.
  destruct a; cbn [List.find cfg_name];
    rewrite ?(bool_decide_eq_false_2 (codex = claude)) by discriminate;
    rewrite ?(bool_decide_eq_false_2 (codex = cursor)) by discriminate;
    rewrite ?(bool_decide_eq_false_2 (claude = cursor)) by discriminate;
    rewrite ?(bool_decide_eq_true_2 (codex = codex)) by reflexivity;
    rewrite ?(bool_decide_eq_true_2 (claude = claude)) by reflexivity;
    rewrite ?(bool_decide_eq_true_2 (cursor = cursor)) by reflexivity;
    eexists; (split; [reflexivity|]); cbn [In cfg_name cfg_cmd];
    (split; [tauto|]); (split; [reflexivity|]);
    apply or_default_nonempty; discriminate.
Qed.

Lemma main_inversion (w : World) (rawArgs : list jsstring) :
  match main w rawArgs with
  | JsonOutput o =>
      exists selected parsed dir,
        agent_was_run w rawArgs selected parsed dir /\
        opt_format (p_options parsed) = FmtJson /\
        agent o = cfg_name selected /\
        command o = cfg_cmd selected /\
        model o = opt_modelId (p_options parsed) /\
        out_cwd o = path_resolve [dir]
  | TextOutput d =>
      exists selected parsed dir,
        agent_was_run w rawArgs selected parsed dir /\
        opt_format (p_options parsed) = FmtText /\
        let code := exitCode (runAgent (w_env w) (w_agent w)
                                (runParams selected (path_resolve [dir]) parsed)) in
        d = if (code =? 0)%Z then None else Some code
  | UnknownAgent => False
  | _ => True
  end.
Proof.
  unfold main.
  destruct (bool_decide _); [exact I|].
  destruct (parseArgs _ _ _) as [e|parsed] eqn:Hparse; [exact I|]. cbv zeta.
  destruct (opt_help _) eqn:Hhelp; [exact I|].
  destruct (opt_list _) eqn:Hlist; [exact I|].
  destruct (opt_agent _) as [a|] eqn:Hagent; [|exact I].
  destruct (selectAgent_found (w_env w) a) as (config & Hsel & Hin & Hname & _).
  rewrite Hsel.
  destruct (negb _) eqn:Hcmd; [exact I|]. apply negb_false_iff in Hcmd.
  destruct (opt_dir _) as [dir|] eqn:Hdir; [|exact I].
  assert (Hrun : agent_was_run w rawArgs config parsed dir).
  { unfold agent_was_run. rewrite Hname. auto 10. }
  destruct (opt_format _) eqn:Hformat.
  - exists config, parsed, dir. cbn. auto 10.
  - destruct (negb _) eqn:Hcode.
    + exists config, parsed, dir. split; [exact Hrun|]. split; [exact Hformat|].
      cbv zeta. apply negb_true_iff in Hcode. rewrite Hcode. reflexivity.
    + exists config, parsed, dir. split; [exact Hrun|]. split; [exact Hformat|].
      cbv zeta. apply negb_false_iff in Hcode. rewrite Hcode. reflexivity.
Qed.


(** X19. [main] never reports an unknown agent: an agent that passed
    parsing always has its configuration. *)
Theorem main_never_unknown_agent (w : World) (rawArgs : list jsstring) :
  main w rawArgs <> UnknownAgent.
Proof.
  intros H. pose proof (main_inversion w rawArgs) as Hinv.
  rewrite H in Hinv. exact Hinv.
Qed.

(** X20. A structured record is only produced after a successful parse
    without help or list request, for the agent that was selected, with
    that agent's configured command, and only when that command exists.
    Its [model] field is the requested model identifier, whether or not
    the model flag was appended. *)
Theorem json_output_origin (w : World) (rawArgs : list jsstring) (o : Output) :
  main w rawArgs = JsonOutput o ->
  w_commandExists w (command o) = true /\
  exists selected parsed,
    parseArgs (w_env w) (w_cwd w) rawArgs = inr parsed /\
    opt_help (p_options parsed) = false /\
    opt_list (p_options parsed) = false /\
    opt_agent (p_options parsed) = Some (agent o) /\
    In selected (buildAgentConfigs (w_env w)) /\
    cfg_name selected = agent o /\
    cfg_cmd selected = command o /\
    model o = opt_modelId (p_options parsed).
Proof.
  intros H. pose proof (main_inversion w rawArgs) as Hinv. rewrite H in Hinv.
  destruct Hinv
    as (selected & parsed & dir & (Hp & Hh & Hl & Ha & Hin & Hc & _) & _ & Hag & Hcmd & Hm & _).
  rewrite Hcmd, Hag. split; [exact Hc|].
  exists selected, parsed. auto 10.
Qed.

(** X21. In text mode the status query and the files are never
    consulted: the outcome is the same whatever they are, and a
    diagnostic never names exit code 0. *)
Theorem text_mode_ignores_repository (w : World) (rawArgs : list jsstring)
    (d : option Z) (git : jsstring -> jsstring * option Z)
    (readFile : jsstring -> option (list byte)) :
  main w rawArgs = TextOutput d ->
  main (with_repository git readFile w) rawArgs = TextOutput d /\
  d <> Some 0%Z.
Proof.
  intros H. split.
  - revert H. unfold main, with_repository, runSkills, listAgents, getNpxCommand.
    cbn [w_env w_cwd w_win32 w_commandExists w_skills w_agent].
    destruct (bool_decide _); [discriminate|].
    destruct (parseArgs _ _ _) as [e|parsed]; [discriminate|]. cbv zeta.
    destruct (opt_help _); [discriminate|].
    destruct (opt_list _); [discriminate|].
    destruct (opt_agent _); [|discriminate].
    destruct (selectAgent _ _); [|discriminate].
    destruct (negb _); [discriminate|].
    destruct (opt_dir _); [|discriminate].
    destruct (opt_format _); [discriminate|]. auto.
  - pose proof (main_inversion w rawArgs) as Hinv. rewrite H in Hinv.
    destruct Hinv as (selected & parsed & dir & _ & _ & Hd). cbv zeta in Hd.
    rewrite Hd.
    match goal with
    | |- context [Z.eqb ?x 0] => destruct (Z.eqb_spec x 0) as [|Hne]
    end; congruence.
Qed.

End MainMore.

(** ** How the prompt reaches the agent *)

Section Delivery.

Context {rt : Runtime}.

(** An entry that holds the placeholder once, with no other opening
    brace, and a prompt without a dollar sign. *)
Lemma replaceAll_placeholder (a b prompt : jsstring) :
  Forall (fun c => c <> 123%N) a ->
  Forall (fun c => c <> 123%N) b ->
  Forall (fun c => c <> 36%N) prompt ->
  includes (a ++ lit "{prompt}" ++ b) (lit "{prompt}") = true /\
  replaceAll (a ++ lit "{prompt}" ++ b) (lit "{prompt}") prompt = a ++ prompt ++ b.
Proof.
  intros Ha Hb Hp. split.
  - apply includes_app_start, startsWith_refl_app.
  - unfold replaceAll.
    rewrite (replaceAll_scan_front (lit "{prompt}") prompt [] a _ 123%N eq_refl Ha).
    f_equal. cbn [app].
    change (lit "{prompt}" ++ b) with (123%N :: lit "prompt}" ++ b).
    cbn [replaceAll_scan].
    change (123%N :: lit "prompt}" ++ b) with (lit "{prompt}" ++ b).
    rewrite startsWith_refl_app.
    rewrite GetSubstitution_plain by exact Hp. f_equal.
    change (length (lit "{prompt}") - 1) with (length (lit "prompt}")).
    rewrite replaceAll_scan_skip.
    rewrite <- (app_nil_r b) at 1.
    rewrite (replaceAll_scan_front (lit "{prompt}") prompt _ b [] 123%N eq_refl Hb).
    cbn. apply app_nil_r.
Qed.

(** Entry by entry, interpolation replaces the entries that hold the
    placeholder and keeps the others. *)
Lemma interpolateArgs_entries (args : list jsstring) (prompt : jsstring) :
  int_args (interpolateArgs args prompt) =
    map (fun arg => if includes arg (lit "{prompt}")
                    then replaceAll arg (lit "{prompt}") prompt
                    else arg) args.
Proof.
  induction args as [|arg rest IH]; [reflexivity|].
  cbn [interpolateArgs map].
  destruct (includes arg (lit "{prompt}")); cbn [int_args]; rewrite IH; reflexivity.
Qed.

(** A placeholder entry reaches the child with the prompt in the
    placeholder's place, whatever the mode. *)
Lemma placeholder_entry_delivered (env : Env) (p : RunParams) (a b : jsstring) :
  In (a ++ lit "{prompt}" ++ b) (cfg_args (rp_config p)) ->
  Forall (fun c => c <> 123%N) a ->
  Forall (fun c => c <> 123%N) b ->
  Forall (fun c => c <> 36%N) (rp_prompt p) ->
  In (a ++ rp_prompt p ++ b) (l_args (runAgent_launch env p)).
Proof.
  intros Hin Ha Hb Hp. rewrite finalArgs_shape. unfold assembled.
  apply in_or_app. left. apply in_or_app. left.
  rewrite interpolateArgs_entries. apply in_map_iff.
  exists (a ++ lit "{prompt}" ++ b). split; [|exact Hin].
  destruct (replaceAll_placeholder a b (rp_prompt p) Ha Hb Hp) as [-> ->].
  reflexivity.
Qed.

(** C1, as the program has it. In mode "none" nothing is written to the
    child's standard input and the prompt is not appended: the final
    argument list is the interpolated template, the forwarded tokens
    and the model pair. Placeholder substitution is not switched off by
    the mode: every template entry that holds the placeholder is
    replaced by the result of [replaceAll] on it and every other entry
    is kept, so a template without the placeholder is passed as it is,
    and an entry that holds the placeholder once, with no other opening
    brace, reaches the child with the prompt in the placeholder's place
    when the prompt has no dollar sign. *)
Theorem none_mode_delivery (env : Env) (p : RunParams) :
  rp_inputMode p = InNone ->
  l_stdin (runAgent_launch env p) = None /\
  l_args (runAgent_launch env p) =
    int_args (interpolateArgs (cfg_args (rp_config p)) (rp_prompt p))
      ++ rp_passthrough p ++ model_pair env p /\
  (Forall (fun arg => includes arg (lit "{prompt}") = false) (cfg_args (rp_config p)) ->
   int_args (interpolateArgs (cfg_args (rp_config p)) (rp_prompt p)) =
     cfg_args (rp_config p)) /\
  int_args (interpolateArgs (cfg_args (rp_config p)) (rp_prompt p)) =
    map (fun arg => if includes arg (lit "{prompt}")
                    then replaceAll arg (lit "{prompt}") (rp_prompt p)
                    else arg) (cfg_args (rp_config p)) /\
  (forall a b,
      In (a ++ lit "{prompt}" ++ b) (cfg_args (rp_config p)) ->
      Forall (fun c => c <> 123%N) a ->
      Forall (fun c => c <> 123%N) b ->
      Forall (fun c => c <> 36%N) (rp_prompt p) ->
      In (a ++ rp_prompt p ++ b) (l_args (runAgent_launch env p))).
Proof.
  intros Hmode. split; [|split; [|split; [|split]]].
  - unfold runAgent_launch, delivery. cbv zeta. cbn [l_stdin]. rewrite Hmode.
    destruct (rp_prompt p); reflexivity.
  - rewrite finalArgs_shape. unfold prompt_arg. rewrite Hmode.
    unfold assembled. destruct (rp_prompt p); rewrite app_nil_r, app_assoc; reflexivity.
  - intros Hno. rewrite interpolateArgs_no_placeholder by assumption. reflexivity.
  - apply interpolateArgs_entries.
  - intros a b. apply placeholder_entry_delivered.
Qed.


End Delivery.

(** ** The definitions at work *)

Example classify_flags :
  map classify [lit "--"; lit "-a"; lit "--model-id"; lit "--no-input"; lit "--verbose"; lit "fix"]
  = [TDelimiter; TAgent; TModel; TNoInput; TPositional; TPositional].
Proof. vm_compute. reflexivity. Qed.

Example parseArgs_sample :
  @parseArgs sample_runtime ∅ (lit "/w")
    [lit "fix"; lit "the"; lit "-a"; lit "codex"; lit "bug"; lit "--max-bytes"; lit "12";
     lit "--"; lit "-x"; lit "--"]
  = inr {| p_options :=
             mkOptions (Some codex) (Some (lit "/w")) FmtJson InAuto (12 # 1) true false
               None false;
           p_prompt := lit "fix the bug";
           p_passthrough := [lit "-x"; lit "--"] |}.
Proof. vm_compute. reflexivity. Qed.

Example parseArgs_dir_takes_delimiter :
  @parseArgs sample_runtime ∅ (lit "/w") [lit "-d"; lit "--"; lit "x"]
  = inr {| p_options :=
             mkOptions None (Some (lit "--")) FmtJson InAuto DEFAULT_MAX_BYTES true false
               None false;
           p_prompt := lit "x";
           p_passthrough := [] |}.
Proof. vm_compute. reflexivity. Qed.

Example parse_line_rename :
  parse_line (lit "R  old name.txt -> new name.txt") = Some (lit "R", lit "new name.txt").
Proof. vm_compute. reflexivity. Qed.

Example getModelFlag_env :
  getModelFlag {[ lit "AGENT_RUN_MODEL_FLAG" := lit "-M" ]} cursor = lit "-M".
Proof. vm_compute. reflexivity. Qed.

Example replaceAll_two :
  replaceAll (lit "a{prompt}b{prompt}") (lit "{prompt}") (lit "fix it") = lit "afix itbfix it".
Proof. vm_compute. reflexivity. Qed.

Example replaceAll_dollar :
  replaceAll (lit "-p={prompt}!") (lit "{prompt}") (lit "$$ $& $` $' $1") = lit "-p=$ {prompt} -p= ! $1!".
Proof. vm_compute. reflexivity. Qed.

Example split_arrow :
  split (lit "old name -> new -> name") (lit " -> ") = [lit "old name"; lit "new"; lit "name"].
Proof. vm_compute. reflexivity. Qed.

Example split_lines_crlf :
  split_lines [65; 13; 10; 66; 10; 13; 67; 10]%N = [[65]; [66]; [13; 67]; []]%N.
Proof. vm_compute. reflexivity. Qed.

Example trim_both : trim (lit "  fix the  bug ") = lit "fix the  bug".
Proof. vm_compute. reflexivity. Qed.

Example binary_null : isProbablyBinary [x41; x00; x42] = true.
Proof. vm_compute. reflexivity. Qed.

Example binary_ratio_3_of_10 :
  isProbablyBinary [x01; x02; x03; x41; x41; x41; x41; x41; x41; x41] = false.
Proof. vm_compute. reflexivity. Qed.

Example binary_ratio_4_of_10 :
  isProbablyBinary [x01; x02; x03; x04; x41; x41; x41; x41; x41; x41] = true.
Proof. vm_compute. reflexivity. Qed.

Example binary_empty : isProbablyBinary [] = false.
Proof. vm_compute. reflexivity. Qed.

(** ** The properties at concrete inputs *)

Lemma isProbablyBinary_spec_witness :
  isProbablyBinary [x01; x02; x03; x04; x05] = true /\
  isProbablyBinary [x09; x0a; x0d; x20; x7e; x7f; x80; x1f; x41; x42] = false.
Proof.
  split.
  - apply (isProbablyBinary_spec [x01; x02; x03; x04; x05]).
    right. vm_compute. split; repeat constructor.
  - destruct (isProbablyBinary [x09; x0a; x0d; x20; x7e; x7f; x80; x1f; x41; x42]) eqn:Hb;
      [|reflexivity].
    apply (isProbablyBinary_spec [x09; x0a; x0d; x20; x7e; x7f; x80; x1f; x41; x42]) in Hb.
    exfalso. destruct Hb as [Hnull|[_ Hratio]].
    + vm_compute in Hnull. repeat (apply Exists_cons in Hnull as [Hnull|Hnull]; [discriminate|]).
      apply Exists_nil in Hnull. exact Hnull.
    + vm_compute in Hratio. lia.
Defined.

(** C1 as stated fails: in mode "none" a template entry with the
    placeholder still carries the prompt to the child. *)
Lemma none_mode_placeholder_counterexample :
  let p := {| rp_config := mkAgentConfig claude (lit "claude") [lit "-p"; lit "{prompt}"];
              rp_prompt := lit "fix the bug";
              rp_inputMode := InNone;
              rp_cwd := lit "/w";
              rp_passthrough := [];
              rp_format := FmtJson;
              rp_modelId := None |} in
  rp_prompt p <> [] /\
  l_args (runAgent_launch ∅ p) = [lit "-p"; lit "fix the bug"] /\
  In (rp_prompt p) (l_args (runAgent_launch ∅ p)).
Proof.
  cbv zeta. split; [discriminate|]. split.
  - vm_compute. reflexivity.
  - vm_compute. right. left. reflexivity.
Qed.

Lemma none_mode_delivery_witness :
  let p := {| rp_config := mkAgentConfig codex (lit "codex") [lit "exec"; lit "--prompt={prompt}"];
              rp_prompt := lit "fix the bug";
              rp_inputMode := InNone;
              rp_cwd := lit "/w";
              rp_passthrough := [lit "-v"];
              rp_format := FmtJson;
              rp_modelId := Some (lit "o3") |} in
  l_stdin (runAgent_launch ∅ p) = None /\
  l_args (runAgent_launch ∅ p) =
    [lit "exec"; lit "--prompt=fix the bug"; lit "-v"; lit "--model"; lit "o3"] /\
  In (lit "--prompt=" ++ lit "fix the bug" ++ []) (l_args (runAgent_launch ∅ p)).
Proof.
  intros p.
  destruct (none_mode_delivery ∅ p eq_refl) as (Hstdin & Hargs & _ & _ & Hentry).
  split; [exact Hstdin|]. split.
  - rewrite Hargs. vm_compute. reflexivity.
  - apply (Hentry (lit "--prompt=") []).
    + right. left. reflexivity.
    + vm_compute. repeat constructor; discriminate.
    + constructor.
    + vm_compute. repeat constructor; discriminate.
Defined.

(** C2 as stated fails: the model pair and the prompt come after the
    forwarded tokens, which are therefore not at the end. *)
Lemma passthrough_not_last_counterexample :
  let argv := [lit "fix"; lit "-a"; lit "claude"; lit "-m"; lit "sonnet";
               lit "--"; lit "--max-tokens"; lit "2048"; lit "-v"] in
  let trailing := [lit "--max-tokens"; lit "2048"; lit "-v"] in
  exists r,
    @parseArgs sample_runtime ∅ (lit "/w") argv = inr r /\
    p_passthrough r = trailing /\
    let final :=
      l_args (runAgent_launch ∅
                (runParams (mkAgentConfig claude (lit "claude") []) (lit "/w") r)) in
    final = [lit "--max-tokens"; lit "2048"; lit "-v"; lit "--model"; lit "sonnet"; lit "fix"] /\
    ~ (exists front, final = front ++ trailing).
Proof.
  cbv zeta. eexists. split; [vm_compute; reflexivity|].
  split; [reflexivity|]. split; [vm_compute; reflexivity|].
  intros [front H]. apply (f_equal (@rev _)) in H.
  rewrite rev_app_distr in H. vm_compute in H. discriminate H.
Qed.

Lemma passthrough_position_witness :
  let pre := [lit "fix"; lit "-a"; lit "claude"; lit "-m"; lit "sonnet"] in
  let trailing := [lit "--max-tokens"; lit "2048"; lit "-v"] in
  exists r,
    @parseArgs sample_runtime ∅ (lit "/w") (pre ++ lit "--" :: trailing) = inr r /\
    l_args (runAgent_launch ∅
              (runParams (mkAgentConfig claude (lit "claude") [lit "-p"; lit "{prompt}"])
                 (lit "/w") r))
    = [lit "-p"; lit "fix"] ++ trailing ++ [lit "--model"; lit "sonnet"].
Proof.
  cbv zeta.
  assert (Hc : complete [lit "fix"; lit "-a"; lit "claude"; lit "-m"; lit "sonnet"] = true)
    by (vm_compute; reflexivity).
  assert (Hpre : @parseArgs sample_runtime ∅ (lit "/w")
                   [lit "fix"; lit "-a"; lit "claude"; lit "-m"; lit "sonnet"]
                 = inr {| p_options :=
                            mkOptions (Some claude) (Some (lit "/w")) FmtJson InAuto
                              DEFAULT_MAX_BYTES true false (Some (lit "sonnet")) false;
                          p_prompt := lit "fix";
                          p_passthrough := [] |})
    by (vm_compute; reflexivity).
  destruct (@passthrough_position sample_runtime ∅ (lit "/w") _
              [lit "--max-tokens"; lit "2048"; lit "-v"] _ Hc Hpre) as [Hparse Hargs].
  eexists. split; [exact Hparse|].
  rewrite Hargs. vm_compute. reflexivity.
Defined.

(** C3 as stated fails: a flag supplied twice stays twice. *)
Lemma model_flag_twice_counterexample :
  let p := {| rp_config := mkAgentConfig claude (lit "claude") [lit "--model=haiku"];
              rp_prompt := [];
              rp_inputMode := InAuto;
              rp_cwd := lit "/w";
              rp_passthrough := [lit "--model"; lit "opus"];
              rp_format := FmtJson;
              rp_modelId := Some (lit "sonnet") |} in
  hasFlag (assembled p) (getModelFlag ∅ claude) = true /\
  l_args (runAgent_launch ∅ p) = [lit "--model=haiku"; lit "--model"; lit "opus"] /\
  flag_count (getModelFlag ∅ claude) (l_args (runAgent_launch ∅ p)) = 2.
Proof. cbv zeta. repeat split; vm_compute; reflexivity. Qed.

Lemma model_flag_not_appended_witness :
  let p := {| rp_config := mkAgentConfig claude (lit "claude") [lit "-p"];
              rp_prompt := lit "fix";
              rp_inputMode := InStdin;
              rp_cwd := lit "/w";
              rp_passthrough := [lit "--model=opus"];
              rp_format := FmtText;
              rp_modelId := Some (lit "sonnet") |} in
  l_args (runAgent_launch ∅ p) = [lit "-p"; lit "--model=opus"] /\
  flag_count (lit "--model") (l_args (runAgent_launch ∅ p)) = 1.
Proof.
  intros p.
  assert (Hhas : hasFlag (assembled p) (getModelFlag ∅ (cfg_name (rp_config p))) = true)
    by (vm_compute; reflexivity).
  destruct (model_flag_not_appended ∅ p (lit "sonnet") eq_refl Hhas)
    as (_ & Hargs & Hcount & _).
  split.
  - rewrite Hargs. vm_compute. reflexivity.
  - change (lit "--model") with (getModelFlag ∅ claude).
    etransitivity; [exact Hcount|]. vm_compute. reflexivity.
Defined.

(** C4 as stated fails: a file shorter than the cap and free of null
    bytes is still recorded without content when it is classified as
    binary. *)
Lemma small_binary_file_counterexample :
  let data := [x01; x02; x41] in
  let changes :=
    @getGitChanges sample_runtime (lit " M blob" ++ [10%N], Some 0%Z)
      (fun _ => Some data) (lit "/w") DEFAULT_MAX_BYTES true in
  (inject_Z (Z.of_nat (length data)) < DEFAULT_MAX_BYTES)%Q /\
  existsb is_null data = false /\
  changes = [mkChange (lit "blob") (lit "M") None None (Some true)] /\
  ~ (forall c, In c changes -> ch_content c = Some (@utf8_decode sample_runtime data)).
Proof.
  cbv zeta. split; [reflexivity|]. split; [reflexivity|].
  assert (E : @getGitChanges sample_runtime (lit " M blob" ++ [10%N], Some 0%Z)
                (fun _ => Some [x01; x02; x41]) (lit "/w") DEFAULT_MAX_BYTES true
              = [mkChange (lit "blob") (lit "M") None None (Some true)])
    by (vm_compute; reflexivity).
  split; [exact E|]. rewrite E. intros H.
  specialize (H _ (or_introl eq_refl)). discriminate H.
Qed.

Lemma change_content_witness :
  let data := [x41; x42; x43] in
  let c := mkChange (lit "a.txt") (lit "M") (Some (lit "AB")) (Some true) None in
  ch_content c = Some (@utf8_decode sample_runtime (take 2 data)) /\
  length (take 2 data) = 2 /\
  ch_truncated c = Some true.
Proof.
  intros data c.
  assert (Hin : c ∈ @getGitChanges sample_runtime (lit " M a.txt" ++ [10%N], Some 0%Z)
                      (fun _ => Some data) (lit "/w") (5 # 2) true).
  { assert (E : @getGitChanges sample_runtime (lit " M a.txt" ++ [10%N], Some 0%Z)
                  (fun _ => Some data) (lit "/w") (5 # 2) true = [c])
      by (vm_compute; reflexivity).
    rewrite E. apply list_elem_of_here. }
  destruct (@change_content sample_runtime _ (fun _ => Some data) (lit "/w") (5 # 2) c data
              eq_refl Hin eq_refl) as (_ & _ & _ & Hlarge & _).
  destruct (Hlarge eq_refl eq_refl) as (Hcontent & Hlen & Htrunc & _).
  split; [exact Hcontent|]. split; [exact Hlen | exact Htrunc].
Defined.

(** C5 as stated fails: an unknown agent after the agent option makes
    parsing fail. *)
Lemma unknown_agent_flag_counterexample :
  normalizeAgent (Some (lit "gemini")) = None /\
  @parseArgs sample_runtime ∅ (lit "/w") [lit "fix"; lit "--agent"; lit "gemini"]
  = inl (InvalidAgent (Some (lit "gemini"))).
Proof. split; vm_compute; reflexivity. Qed.

Lemma unknown_agent_resolution_witness :
  match @parseArgs sample_runtime {[ lit "AGENT_EXEC_AGENT" := lit "gemini" ]} (lit "/w")
          [lit "fix"; lit "it"] with
  | inl e => e = MissingModelValue
  | inr r => opt_agent (p_options r) = None
  end /\
  @parseArgs sample_runtime ∅ (lit "/w") ([lit "fix"] ++ lit "-a" :: lit "gemini" :: [lit "it"])
  = inl (InvalidAgent (Some (lit "gemini"))).
Proof.
  assert (H1 : lit "gemini" <> lit "codex") by (vm_compute; discriminate).
  assert (H2 : lit "gemini" <> lit "claude") by (vm_compute; discriminate).
  assert (H3 : lit "gemini" <> lit "cursor") by (vm_compute; discriminate).
  destruct (@unknown_agent_resolution sample_runtime (lit "gemini") H1 H2 H3)
    as (_ & Henv & Hflag).
  split.
  - apply Henv; [vm_compute; reflexivity|].
    constructor; [vm_compute; discriminate|].
    constructor; [vm_compute; discriminate|]. constructor.
  - apply (Hflag ∅ (lit "/w") [lit "fix"] (lit "-a") [lit "it"]
             {| p_options := @initial_options sample_runtime ∅ (lit "/w");
                p_prompt := lit "fix";
                p_passthrough := [] |});
      vm_compute; reflexivity.
Defined.

Lemma failed_status_query_witness :
  let w := {| w_env := ∅;
              w_cwd := lit "/repo";
              w_win32 := false;
              w_commandExists := fun _ => true;
              w_skills := fun _ _ => ChildError;
              w_agent := fun _ => Some 3%Z;
              w_git := fun _ => ([], Some 128%Z);
              w_readFile := fun _ => None |} in
  exists o,
    @main sample_runtime w [lit "fix"; lit "-a"; lit "codex"] = JsonOutput o /\
    changes o = [] /\ ok o = false /\ out_exitCode o = 3%Z.
Proof.
  intros w.
  assert (Hmain : @main sample_runtime w [lit "fix"; lit "-a"; lit "codex"]
                  = JsonOutput
                      {| ok := false;
                         agent := codex;
                         model := None;
                         command := lit "codex";
                         out_args := [lit "fix"];
                         out_cwd := lit "/repo";
                         out_exitCode := 3;
                         changes := [] |})
    by (vm_compute; reflexivity).
  eexists. split; [exact Hmain|].
  destruct (proj2 (@failed_status_query sample_runtime) w _ _ Hmain) as (Hch & Hok & _).
  - cbn. discriminate.
  - split; [exact Hch|]. split; [exact Hok | reflexivity].
Defined.

Lemma runAgent_no_exit_code_witness :
  let p := {| rp_config := mkAgentConfig cursor (lit "agent") [lit "-p"; lit "{prompt}"];
              rp_prompt := lit "fix";
              rp_inputMode := InAuto;
              rp_cwd := lit "/w";
              rp_passthrough := [];
              rp_format := FmtText;
              rp_modelId := None |} in
  exitCode (runAgent ∅ (fun _ => None) p) = 0%Z /\
  args (runAgent ∅ (fun _ => None) p) = l_args (runAgent_launch ∅ p).
Proof.
  intros p. exact (runAgent_no_exit_code ∅ (fun _ => None) p eq_refl).
Defined.



(** C10 as stated fails: the model option raises its error also when a
    token follows it and that token is empty. *)
Lemma empty_model_value_counterexample :
  let argv := [lit "fix"; lit "--model"; []; lit "--text"] in
  argv !! 2 = Some [] /\
  @parseArgs sample_runtime ∅ (lit "/w") argv = inl MissingModelValue.
Proof. cbv zeta. split; vm_compute; reflexivity. Qed.

Lemma parse_errors_and_fallbacks_witness :
  @parseArgs sample_runtime {[ lit "AGENT_EXEC_FORMAT" := lit "text" ]} (lit "/w")
    ([lit "fix"] ++ lit "--format" :: option_list (Some (lit "yaml")))
  = inr {| p_options :=
             mkOptions None (Some (lit "/w")) FmtJson InAuto DEFAULT_MAX_BYTES true false
               None false;
           p_prompt := lit "fix";
           p_passthrough := [] |} /\
  @parseArgs sample_runtime ∅ (lit "/w") ([lit "fix"] ++ lit "-d" :: option_list None)
  = inr {| p_options :=
             mkOptions None None FmtJson InAuto DEFAULT_MAX_BYTES true false None false;
           p_prompt := lit "fix";
           p_passthrough := [] |}.
Proof.
  split.
  - destruct (@parse_errors_and_fallbacks sample_runtime
                {[ lit "AGENT_EXEC_FORMAT" := lit "text" ]} (lit "/w"))
      as (_ & Hopt & _).
    assert (Hpre : @parseArgs sample_runtime {[ lit "AGENT_EXEC_FORMAT" := lit "text" ]}
                     (lit "/w") [lit "fix"]
                   = inr {| p_options :=
                              mkOptions None (Some (lit "/w")) FmtText InAuto
                                DEFAULT_MAX_BYTES true false None false;
                            p_prompt := lit "fix";
                            p_passthrough := [] |})
      by (vm_compute; reflexivity).
    destruct (Hopt [lit "fix"] (lit "--format") (Some (lit "yaml")) _ eq_refl Hpre)
      as (Hformat & _).
    rewrite Hformat by (vm_compute; reflexivity). vm_compute. reflexivity.
  - destruct (@parse_errors_and_fallbacks sample_runtime ∅ (lit "/w")) as (_ & Hopt & _).
    assert (Hpre : @parseArgs sample_runtime ∅ (lit "/w") [lit "fix"]
                   = inr {| p_options := @initial_options sample_runtime ∅ (lit "/w");
                            p_prompt := lit "fix";
                            p_passthrough := [] |})
      by (vm_compute; reflexivity).
    destruct (Hopt [lit "fix"] (lit "-d") None _ eq_refl Hpre) as (_ & _ & _ & Hdir).
    rewrite Hdir by (vm_compute; reflexivity). vm_compute. reflexivity.
Defined.

(** ** The further properties at concrete inputs *)

Ltac each_char := vm_compute; repeat constructor; discriminate.

Lemma placeholder_substitution_witness :
  interpolateArgs [lit "--prompt=" ++ lit "{prompt}" ++ lit "!"] (lit "fix the bug") =
    {| int_args := [lit "--prompt=" ++ lit "fix the bug" ++ lit "!"];
       int_usedPrompt := true |}.
Proof.
  apply (placeholder_substitution (lit "--prompt=") (lit "!") (lit "fix the bug"));
    each_char.
Defined.

Lemma model_flag_present_witness :
  let p := {| rp_config := mkAgentConfig codex (lit "codex") [lit "exec"];
              rp_prompt := lit "fix";
              rp_inputMode := InAuto;
              rp_cwd := lit "/w";
              rp_passthrough := [];
              rp_format := FmtJson;
              rp_modelId := Some (lit "o3") |} in
  hasFlag (l_args (runAgent_launch {[ lit "AGENT_EXEC_MODEL_FLAG" := lit "-m" ]} p))
    (getModelFlag {[ lit "AGENT_EXEC_MODEL_FLAG" := lit "-m" ]} codex) = true.
Proof.
  intros p.
  exact (proj2 (model_flag_present {[ lit "AGENT_EXEC_MODEL_FLAG" := lit "-m" ]} p
                  111%N (lit "3") eq_refl)).
Defined.

Lemma appended_prompt_witness :
  let p := {| rp_config := mkAgentConfig codex (lit "codex") [lit "exec"];
              rp_prompt := lit "fix";
              rp_inputMode := InAuto;
              rp_cwd := lit "/w";
              rp_passthrough := [lit "-v"];
              rp_format := FmtJson;
              rp_modelId := None |} in
  l_args (runAgent_launch ∅ p) = baseArgs ∅ p ++ [lit "fix"] /\
  l_stdin (runAgent_launch ∅ p) = None.
Proof.
  intros p.
  assert (Hne : l_args (runAgent_launch ∅ p) <> baseArgs ∅ p)
    by (vm_compute; discriminate).
  destruct (appended_prompt ∅ p Hne) as (Hargs & _ & _ & _ & Hstdin).
  split; [exact Hargs | exact Hstdin].
Defined.

Lemma isProbablyBinary_prefix_witness :
  isProbablyBinary (repeat x41 (Z.to_nat 8000) ++ [x00]) =
  isProbablyBinary (repeat x41 (Z.to_nat 8000)).
Proof.
  apply isProbablyBinary_prefix. rewrite repeat_length. apply le_n.
Defined.

Lemma printable_text_not_binary_witness :
  isProbablyBinary [x66; x69; x78; x0a] = false.
Proof.
  apply printable_text_not_binary. vm_compute. repeat constructor.
Defined.

Lemma high_bytes_binary_witness :
  isProbablyBinary [xe4; xb8; xad; xe6; x96; x87] = true.
Proof.
  apply high_bytes_binary; [discriminate|].
  vm_compute. repeat constructor; discriminate.
Defined.

Lemma agent_from_environment_witness :
  exists r,
    @parseArgs sample_runtime
      {[ lit "AGENT_RUN_AGENT" := lit "claude" ]} (lit "/w") [lit "fix"; lit "--text"] = inr r /\
    opt_agent (p_options r) = Some claude.
Proof.
  assert (Hrun : @parseArgs sample_runtime
                   {[ lit "AGENT_RUN_AGENT" := lit "claude" ]} (lit "/w")
                   [lit "fix"; lit "--text"]
                 = inr {| p_options :=
                            mkOptions (Some claude) (Some (lit "/w")) FmtText InAuto
                              DEFAULT_MAX_BYTES true false None false;
                          p_prompt := lit "fix";
                          p_passthrough := [] |})
    by (vm_compute; reflexivity).
  assert (Hall : Forall (fun a => classify a <> TAgent) [lit "fix"; lit "--text"])
    by (repeat constructor; vm_compute; discriminate).
  eexists. split; [exact Hrun|].
  rewrite (@agent_from_environment sample_runtime _ _ _ _ Hall Hrun).
  vm_compute. reflexivity.
Defined.

Lemma parseArgs_maxBytes_positive_witness :
  exists r,
    @parseArgs sample_runtime
      {[ lit "AGENT_EXEC_MAX_BYTES" := lit "-5" ]} (lit "/w")
      [lit "fix"; lit "--max-bytes"; lit "0"] = inr r /\
    (0 < opt_maxBytes (p_options r))%Q.
Proof.
  eexists. split; [vm_compute; reflexivity|].
  apply (@parseArgs_maxBytes_positive sample_runtime
           {[ lit "AGENT_EXEC_MAX_BYTES" := lit "-5" ]} (lit "/w")
           [lit "fix"; lit "--max-bytes"; lit "0"]).
  vm_compute. reflexivity.
Defined.

Lemma no_delimiter_no_passthrough_witness :
  exists r,
    @parseArgs sample_runtime ∅ (lit "/w") [lit "fix"; lit "-a"; lit "codex"; lit "-v"] = inr r /\
    p_passthrough r = [].
Proof.
  eexists. split; [vm_compute; reflexivity|].
  apply (@no_delimiter_no_passthrough sample_runtime ∅ (lit "/w")
           [lit "fix"; lit "-a"; lit "codex"; lit "-v"]).
  - repeat constructor; vm_compute; discriminate.
  - vm_compute. reflexivity.
Defined.

Lemma prompt_trimmed_witness :
  exists r,
    @parseArgs sample_runtime ∅ (lit "/w") [lit "  fix "; lit "bug "] = inr r /\
    (forall c, head (p_prompt r) = Some c \/ last (p_prompt r) = Some c ->
               is_white c = false).
Proof.
  eexists. split; [vm_compute; reflexivity|].
  apply (@prompt_trimmed sample_runtime ∅ (lit "/w") [lit "  fix "; lit "bug "]).
  vm_compute. reflexivity.
Defined.

Lemma splitArgs_join_witness :
  splitArgs (Some (join (lit " ") [lit "--foo"; lit "{prompt}"])) =
    [lit "--foo"; lit "{prompt}"].
Proof.
  apply splitArgs_join.
  repeat constructor; try discriminate; each_char.
Defined.

Lemma parse_line_paths_witness :
  parse_line (lit "R " ++ 32%N :: lit "old.txt" ++ lit " -> " ++ lit "new.txt") =
    Some (trim (lit "R "), lit "new.txt").
Proof.
  apply (parse_line_paths (lit "R ") (lit "old.txt") (lit "new.txt") 32%N);
    try reflexivity; try discriminate; unfold spaceless; each_char.
Defined.

Lemma change_record_shape_witness :
  let c := mkChange (lit "blob") (lit "??") None None (Some true) in
  ch_path c <> [] /\ length (ch_status c) <= 2.
Proof.
  intros c.
  assert (Hin : In c (@getGitChanges sample_runtime (lit "?? blob" ++ [10%N], Some 0%Z)
                        (fun _ => Some [x00; x01]) (lit "/w") DEFAULT_MAX_BYTES true)).
  { assert (E : @getGitChanges sample_runtime (lit "?? blob" ++ [10%N], Some 0%Z)
                  (fun _ => Some [x00; x01]) (lit "/w") DEFAULT_MAX_BYTES true = [c])
      by (vm_compute; reflexivity).
    rewrite E. left. reflexivity. }
  destruct (@change_record_shape sample_runtime _ _ _ _ _ c Hin) as (Hpath & Hstatus & _).
  split; [exact Hpath | exact Hstatus].
Defined.

Lemma bare_record_witness :
  let c := mkChange (lit "gone.txt") (lit "D") None None None in
  ch_content c = None /\ ch_truncated c = None /\ ch_binary c = None.
Proof.
  intros c.
  assert (Hin : In c (@getGitChanges sample_runtime (lit " D gone.txt" ++ [10%N], Some 0%Z)
                        (fun _ => None) (lit "/w") DEFAULT_MAX_BYTES true)).
  { assert (E : @getGitChanges sample_runtime (lit " D gone.txt" ++ [10%N], Some 0%Z)
                  (fun _ => None) (lit "/w") DEFAULT_MAX_BYTES true = [c])
      by (vm_compute; reflexivity).
    rewrite E. left. reflexivity. }
  exact (@bare_record sample_runtime _ _ _ _ _ c Hin (or_intror eq_refl)).
Defined.

Lemma json_output_origin_witness :
  let w := {| w_env := {[ lit "AGENT_EXEC_CLAUDE_CMD" := lit "claude-dev" ]};
              w_cwd := lit "/repo";
              w_win32 := false;
              w_commandExists := fun cmd => str_eqb cmd (lit "claude-dev");
              w_skills := fun _ _ => ChildError;
              w_agent := fun _ => Some 0%Z;
              w_git := fun _ => ([], Some 0%Z);
              w_readFile := fun _ => None |} in
  exists o,
    @main sample_runtime w [lit "fix"; lit "-a"; lit "claude"; lit "-m"; lit "opus"] = JsonOutput o /\
    w_commandExists w (command o) = true /\
    model o = Some (lit "opus").
Proof.
  intros w.
  assert (Hmain : @main sample_runtime w
                    [lit "fix"; lit "-a"; lit "claude"; lit "-m"; lit "opus"]
                  = JsonOutput
                      {| ok := true;
                         agent := claude;
                         model := Some (lit "opus");
                         command := lit "claude-dev";
                         out_args := [lit "--model"; lit "opus"; lit "fix"];
                         out_cwd := lit "/repo";
                         out_exitCode := 0;
                         changes := [] |})
    by (vm_compute; reflexivity).
  eexists. split; [exact Hmain|].
  destruct (@json_output_origin sample_runtime w _ _ Hmain) as [Hcmd _].
  split; [exact Hcmd | reflexivity].
Defined.

Lemma text_mode_ignores_repository_witness :
  let w := {| w_env := ∅;
              w_cwd := lit "/repo";
              w_win32 := false;
              w_commandExists := fun _ => true;
              w_skills := fun _ _ => ChildError;
              w_agent := fun _ => Some 2%Z;
              w_git := fun _ => ([], Some 128%Z);
              w_readFile := fun _ => None |} in
  @main sample_runtime
    (with_repository (fun _ => (lit " M a.txt", Some 0%Z)) (fun _ => Some [x41]) w)
    [lit "fix"; lit "-a"; lit "codex"; lit "--text"] = TextOutput (Some 2%Z).
Proof.
  intros w.
  assert (Hmain : @main sample_runtime w [lit "fix"; lit "-a"; lit "codex"; lit "--text"]
                  = TextOutput (Some 2%Z))
    by (vm_compute; reflexivity).
  exact (proj1 (@text_mode_ignores_repository sample_runtime w _ _
                  (fun _ => (lit " M a.txt", Some 0%Z)) (fun _ => Some [x41]) Hmain)).
Defined.
